(** * uproxy-lib: the WebRTC data channel wrapper ([src/webrtc/datachannel.ts])

    A shallow embedding of [module WebRtc]: the [Data] payloads, the [send]
    entry point with its chunking, the outbound queue with the polling
    congestion controller, the inbound dispatch and the open/close promises
    of [class DataChannel].

    JavaScript runs every callback to completion, and a promise's [then]
    callbacks run right after the task that settled it, before any other
    event is delivered.  The embedding follows that: one [Event] is one task
    of the event loop, and the reactions of [onceOpened] and [onceClosed]
    are run inside the step that settles them.  It is assumed of the
    transport that it delivers each answer and each event in a task of its
    own.

    [getLabel] and [fromId] only read or set the label; they are left
    out, and [toString] takes the label as an argument. *)

From Stdlib Require Import ZArith List Lia Bool String.
From Equations Require Import Equations.
From stdpp Require Import base option list gmap.
Import ListNotations.
Local Open Scope Z_scope.

(** ** JavaScript values seen by the code *)

(** A JS string: its UTF-16 code units. *)
Definition jsstring := list Z.

(** An [ArrayBuffer]: its bytes. *)
Definition ArrayBuffer := list Z.

(** [buffer.byteLength] *)
Definition byteLength (b : ArrayBuffer) : Z := Z.of_nat (length b).

(** [str.length] *)
Definition string_length (s : jsstring) : Z := Z.of_nat (length s).

(** The language caps the length of an [ArrayBuffer] (and of a string) at
    2^53 - 1, the largest index. *)
Definition MAX_SAFE_INTEGER : Z := 2 ^ 53 - 1.

Definition wf_ArrayBuffer (b : ArrayBuffer) : Prop :=
  byteLength b <= MAX_SAFE_INTEGER.

(** What a field of a [Data] or of a transport message can hold at run
    time: the interface declares [str ?: string] and [buffer ?: ArrayBuffer],
    but the code tests the fields with [typeof] and [instanceof], so every
    kind of value is represented. *)
Inductive JsValue : Type :=
| JsUndefined
| JsNull
| JsBoolean (b : bool)
| JsNumber (n : Z)
| JsString (s : jsstring)
| JsArrayBuffer (b : ArrayBuffer)
| JsObject (cyclic : bool). (* any other object; whether it refers back to itself *)

(** [typeof v === 'string'] *)
Definition typeof_string (v : JsValue) : bool :=
  match v with JsString _ => true | _ => false end.

(** [typeof v === 'object'] ([typeof null] is ['object'] too) *)
Definition typeof_object (v : JsValue) : bool :=
  match v with JsNull | JsArrayBuffer _ | JsObject _ => true | _ => false end.

(** [v instanceof ArrayBuffer] *)
Definition instanceof_ArrayBuffer (v : JsValue) : bool :=
  match v with JsArrayBuffer _ => true | _ => false end.

(** Truthiness, as [if (v)] tests it. *)
Definition truthy (v : JsValue) : bool :=
  match v with
  | JsUndefined | JsNull => false
  | JsBoolean b => b
  | JsNumber n => negb (n =? 0) (* an integer; no test here tells NaN from 0 *)
  | JsString s => negb (string_length s =? 0)
  | JsArrayBuffer _ | JsObject _ => true
  end.

(** The values [JSON.stringify] writes out.  It throws a [TypeError] on a
    cyclic structure and on nothing else that is data. *)
Definition stringifiable (v : JsValue) : bool :=
  match v with JsObject true => false | _ => true end.

(** ** Constants *)

Definition CHUNK_SIZE : Z := 1024 * 15.
Definition PC_QUEUE_LIMIT : Z := 1024 * 250.
Definition MAX_MESSAGE_SIZE : Z := 2 ^ 53.

(** [interface Data { str ?: string; buffer ?: ArrayBuffer }] *)
Record Data : Type := mkData { str : JsValue; buffer : JsValue }.

(** [{str: s}] and [{buffer: b}]: the other field is absent. *)
Definition StringData (s : jsstring) : Data :=
  {| str := JsString s; buffer := JsUndefined |}.
Definition BufferData (b : ArrayBuffer) : Data :=
  {| str := JsUndefined; buffer := JsArrayBuffer b |}.

(** [freedom_RTCDataChannel.Message]: what the transport's [onmessage]
    delivers; the field [buffer] of the message is [message_buffer] here. *)
Record Message : Type := mkMessage { text : JsValue; message_buffer : JsValue }.

(** ** [ArrayBuffers.chunk] *)

(** Modelled from the spec: [ArrayBuffers.chunk] ([src/arraybuffers]) is not
    among the sources.  The spec has it split a buffer "into an ordered
    sequence of fixed-size Chunks (last chunk may be shorter)": the first
    [size] bytes are cut off the front until nothing is left.  A zero [size]
    has no meaning there (the only caller passes [CHUNK_SIZE]); it yields no
    chunk. *)
Equations? chunk (buf : ArrayBuffer) (size : nat) : list ArrayBuffer
  by wf (length buf) lt :=
  chunk [] _ := [];
  chunk (b :: bs) 0%nat := [];
  chunk (b :: bs) (S n) := take (S n) (b :: bs) :: chunk (drop (S n) (b :: bs)) (S n).
Proof. simpl. rewrite length_drop. lia. Qed.

(** ** Promises, errors and the log *)

(** What the transport's [send] and [sendBuffer], and [JSON.stringify],
    can throw: an exception object, which [e.toString()] and
    [JSON.stringify(e)] in the [catch] block render without throwing
    themselves. *)
Inductive Exception : Type :=
| NetworkError
| InvalidStateError
| TypeError
| OtherException (message : string).

(** The [Error] values the class creates, by the message they carry. *)
Inductive Error : Type :=
| MalformedData (d : Data)    (* 'data to send must have at least `str:string` or ...' *)
| DataTooBig                  (* 'Data was too big to send, sorry. ...' *)
| BadData (d : Data)          (* 'Bad data: ' + JSON.stringify(data) *)
| ErrorInSend (e : Exception) (* 'Error in send: ' + JSON.stringify(e) *)
| FailedToOpenError.          (* 'Failed to open; closed while trying to open.' *)

Inductive Settlement : Type :=
| Fulfilled
| Rejected (e : Error).

Inductive PromiseState : Type :=
| Pending
| Settled (r : Settlement).

(** The promises [send] and the queue hand out. *)
#[warnings="-register-all"]
Inductive Promise : Type :=
| PromiseResolve                  (* Promise.resolve<void>() *)
| PromiseReject (e : Error)       (* Promise.reject(e) *)
| PromiseDeferred (id : nat)      (* new Promise((F,R) => ...), settled later *)
| PromiseAll (ps : list Promise). (* Promise.all(ps).then(() => { return; }) *)

Inductive Status : Type := StillPending | IsFulfilled | IsRejected.

(** Whether a promise is pending, fulfilled or rejected, given the deferred
    promises settled so far. *)
Fixpoint status (settled : gmap nat Settlement) (p : Promise) : Status :=
  match p with
  | PromiseResolve => IsFulfilled
  | PromiseReject _ => IsRejected
  | PromiseDeferred id =>
      match settled !! id with
      | None => StillPending
      | Some Fulfilled => IsFulfilled
      | Some (Rejected _) => IsRejected
      end
  | PromiseAll ps =>
      (fix all (l : list Promise) : Status :=
         match l with
         | [] => IsFulfilled
         | q :: l' =>
             match status settled q, all l' with
             | IsRejected, _ | _, IsRejected => IsRejected
             | IsFulfilled, IsFulfilled => IsFulfilled
             | _, _ => StillPending
             end
         end) ps
  end.

Inductive LogEntry : Type :=
| ErrorRtcOnerror                    (* log.error('rtcDataChannel_.onerror: ' ...) *)
| ErrorUnexpectedData (m : Message)  (* log.error('Unexpected data from peer: ' ...) *)
| DebugErrorInSend (e : Exception).  (* log.debug('Error in send' + e.toString()) *)

(** A call of one of the transport's two send primitives. *)
Inductive RtcCall : Type :=
| CallSend (s : jsstring)
| CallSendBuffer (v : JsValue).

(** ** [Handler.Queue] *)

(** Modelled from the spec: [Handler.Queue] ([src/handler/queue]) is not
    among the sources.  The spec describes "a deque plus a
    consumption-enabled boolean": a single-consumer FIFO whose consumption
    is "either active (chunks are drained to the transport as they arrive)
    or suspended (chunks accumulate in memory)".  An entry keeps the thing
    to handle and the promise [handle] returned for it. *)
Record PendingPromiseHandler : Type :=
  mkPending { thing : Data; completion : nat }.

(** The one handler the class ever installs on [toPeerDataQueue_]. *)
Inductive Handler : Type := HandleSendDataToPeer.

Record Queue : Type := mkQueue {
  queue_ : list PendingPromiseHandler;
  handler_ : option Handler
}.

(** Modelled from the spec: [new Handler.Queue()], "initially suspended". *)
Definition new_Queue : Queue := {| queue_ := []; handler_ := None |}.

(** Modelled from the spec: [isHandling()], whether consumption is active. *)
Definition isHandling (q : Queue) : bool :=
  match handler_ q with Some _ => true | None => false end.

(** Modelled from the spec: [stopHandling()] suspends consumption; the
    entries stay. *)
Definition stopHandling (q : Queue) : Queue :=
  {| queue_ := queue_ q; handler_ := None |}.

(** What waits in the queue, oldest first. *)
Definition things (q : Queue) : list Data := map thing (queue_ q).

(** ** A transport to run the channel on *)

(** The smallest transport that shows both behaviours of the send
    primitives: it accepts every message while it is open, and throws
    [InvalidStateError] once it has been closed. *)
Module SimpleTransport.

Definition RTC : Type := bool.

Definition opened : RTC := true.
Definition closed : RTC := false.

Definition send (r : RTC) (s : jsstring) : Exception + RTC :=
  if r then inr r else inl InvalidStateError.

Definition sendBuffer (r : RTC) (b : JsValue) : Exception + RTC :=
  if r then inr r else inl InvalidStateError.

Definition close (r : RTC) : RTC := closed.

End SimpleTransport.

(** ** The data channel *)

Section DataChannel.

(** The transport, [freedom['core.rtcdatachannel'](id)], is an external
    object: its state is any type [RTC], and its two send primitives
    either throw or return, leaving the transport in a new state. *)
Context {RTC : Type}.
Variable rtc_send : RTC -> jsstring -> Exception + RTC.
Variable rtc_sendBuffer : RTC -> JsValue -> Exception + RTC.
Variable rtc_close : RTC -> RTC.

(** The fields of [class DataChannel], the callbacks and requests the
    constructor and the congestion controller leave with the event loop,
    and two records of what was done: [wire], every call of the
    transport's [send] or [sendBuffer], and [log]. *)
Record DataChannel : Type := mkDataChannel {
  dataFromPeerQueue : list Data;
  toPeerDataQueue_ : Queue;
  onceOpened : PromiseState;
  onceClosed : PromiseState;
  opennedSuccessfully_ : option bool;
  rtcDataChannel_ : RTC;
  (* the event loop *)
  readyState_requested : bool;   (* getReadyState() not yet answered *)
  onopen_listener : bool;        (* rtcDataChannel_.on('onopen', F) was done *)
  bufferedAmount_requested : nat; (* getBufferedAmount() calls not yet answered *)
  timeouts : list Z;             (* delays of the armed setTimeout calls *)
  settled : gmap nat Settlement; (* the deferred promises settled so far *)
  next_promise : nat;
  (* what was done *)
  wire : list RtcCall;
  log : list LogEntry
}.

Definition set_dataFromPeerQueue (v : list Data) (c : DataChannel) :=
  let 'mkDataChannel _ b c d e f g h i j k l m n := c in mkDataChannel v b c d e f g h i j k l m n.
Definition set_toPeerDataQueue_ (v : Queue) (c : DataChannel) :=
  let 'mkDataChannel a _ c d e f g h i j k l m n := c in mkDataChannel a v c d e f g h i j k l m n.
Definition set_onceOpened (v : PromiseState) (c : DataChannel) :=
  let 'mkDataChannel a b _ d e f g h i j k l m n := c in mkDataChannel a b v d e f g h i j k l m n.
Definition set_onceClosed (v : PromiseState) (c : DataChannel) :=
  let 'mkDataChannel a b c _ e f g h i j k l m n := c in mkDataChannel a b c v e f g h i j k l m n.
Definition set_opennedSuccessfully_ (v : option bool) (c : DataChannel) :=
  let 'mkDataChannel a b c d _ f g h i j k l m n := c in mkDataChannel a b c d v f g h i j k l m n.
Definition set_rtcDataChannel_ (v : RTC) (c : DataChannel) :=
  let 'mkDataChannel a b c d e _ g h i j k l m n := c in mkDataChannel a b c d e v g h i j k l m n.
Definition set_readyState_requested (v : bool) (c : DataChannel) :=
  let 'mkDataChannel a b c d e f _ h i j k l m n := c in mkDataChannel a b c d e f v h i j k l m n.
Definition set_onopen_listener (v : bool) (c : DataChannel) :=
  let 'mkDataChannel a b c d e f g _ i j k l m n := c in mkDataChannel a b c d e f g v i j k l m n.
Definition set_bufferedAmount_requested (v : nat) (c : DataChannel) :=
  let 'mkDataChannel a b c d e f g h _ j k l m n := c in mkDataChannel a b c d e f g h v j k l m n.
Definition set_timeouts (v : list Z) (c : DataChannel) :=
  let 'mkDataChannel a b c d e f g h i _ k l m n := c in mkDataChannel a b c d e f g h i v k l m n.
Definition set_settled (v : gmap nat Settlement) (c : DataChannel) :=
  let 'mkDataChannel a b c d e f g h i j _ l m n := c in mkDataChannel a b c d e f g h i j v l m n.
Definition set_next_promise (v : nat) (c : DataChannel) :=
  let 'mkDataChannel a b c d e f g h i j k _ m n := c in mkDataChannel a b c d e f g h i j k v m n.
Definition set_wire (v : list RtcCall) (c : DataChannel) :=
  let 'mkDataChannel a b c d e f g h i j k l _ n := c in mkDataChannel a b c d e f g h i j k l v n.
Definition set_log (v : list LogEntry) (c : DataChannel) :=
  let 'mkDataChannel a b c d e f g h i j k l m _ := c in mkDataChannel a b c d e f g h i j k l m v.

(** *** Synchronous code that may throw *)

(** The outcome of running a piece of synchronous code: it returns a
    value or throws, and leaves the channel in a state either way. *)
Inductive Completion (A : Type) : Type :=
| Normal (a : A) (c : DataChannel)
| Throw (e : Exception) (c : DataChannel).
Arguments Normal {A} a c.
Arguments Throw {A} e c.

Definition bind {A B} (m : Completion A) (k : A -> DataChannel -> Completion B)
  : Completion B :=
  match m with
  | Normal a c => k a c
  | Throw e c => Throw e c
  end.

(** [try { body } catch (e) { handler }] *)
Definition try_catch {A} (body : Completion A)
    (handler : Exception -> DataChannel -> Completion A) : Completion A :=
  match body with
  | Normal a c => Normal a c
  | Throw e c => handler e c
  end.

(** The state a task leaves behind, whether it returned or threw. *)
Definition after {A} (m : Completion A) : DataChannel :=
  match m with Normal _ c | Throw _ c => c end.

(** [let* (x, c) := m in k]: run [m]; if it returned [x] in state [c], go
    on with [k], and if it threw, the exception goes up. *)
Notation "'let*' ( x , c ) := m 'in' k" :=
  (bind m (fun x c => k))
  (at level 10, x name, c name, m at level 100, k at level 200).

(** [this.rtcDataChannel_.send(s)] *)
Definition rtcDataChannel_send (s : jsstring) (c : DataChannel) : Completion unit :=
  let c := set_wire (wire c ++ [CallSend s]) c in
  match rtc_send (rtcDataChannel_ c) s with
  | inl e => Throw e c
  | inr r => Normal tt (set_rtcDataChannel_ r c)
  end.

(** [this.rtcDataChannel_.sendBuffer(b)] *)
Definition rtcDataChannel_sendBuffer (b : JsValue) (c : DataChannel) : Completion unit :=
  let c := set_wire (wire c ++ [CallSendBuffer b]) c in
  match rtc_sendBuffer (rtcDataChannel_ c) b with
  | inl e => Throw e c
  | inr r => Normal tt (set_rtcDataChannel_ r c)
  end.

(** [JSON.stringify({ ... })] of an object with the given fields: what it
    returns goes into a message that is not spelled out here, so all that
    is kept is whether it returns. *)
Definition JSON_stringify (fields : list JsValue) (c : DataChannel) : Completion unit :=
  if forallb stringifiable fields then Normal tt c else Throw TypeError c.

(** *** The outbound path *)

(** [conjestionControlSendHandler]: asks the transport for its buffered
    amount; the answer arrives as a later event ([onBufferedAmount]). *)
Definition conjestionControlSendHandler (c : DataChannel) : DataChannel :=
  set_bufferedAmount_requested (S (bufferedAmount_requested c)) c.

(** [handleSendDataToPeer_] *)
Definition handleSendDataToPeer_ (data : Data) (c : DataChannel) : Completion Promise :=
  let attempt : Completion (option Promise) :=
    try_catch
      (match str data with
       | JsString s =>
           let* (_, c) := rtcDataChannel_send s c in Normal None c
       | _ =>
           if truthy (buffer data) then
             let* (_, c) := rtcDataChannel_sendBuffer (buffer data) c in Normal None c
           else
             let* (_, c) := JSON_stringify [str data; buffer data] c in
             Normal (Some (PromiseReject (BadData data))) c
       end)
      (fun e c =>
         Normal (Some (PromiseReject (ErrorInSend e)))
                (set_log (log c ++ [DebugErrorInSend e]) c))
  in
  let* (early, c) := attempt in
  match early with
  | Some p => Normal p c
  | None => Normal PromiseResolve (conjestionControlSendHandler c)
  end.

(** What a promise returned by the handler settles a queued entry's
    promise with; the handler only returns promises that are settled. *)
Definition settlement_of (p : Promise) : option Settlement :=
  match p with
  | PromiseResolve => Some Fulfilled
  | PromiseReject e => Some (Rejected e)
  | _ => None
  end.

Definition settle (id : nat) (p : Promise) (c : DataChannel) : DataChannel :=
  match settlement_of p with
  | Some r => set_settled (<[id := r]> (settled c)) c
  | None => c
  end.

(** Modelled from the spec: the queue's drain loop ([Handler.Queue] is not
    among the sources).  "Drain step: pop next Chunk, hand it to the
    transport's raw send primitive ..., catch synchronous failures from
    that primitive and reject that chunk's completion future": while a
    handler is set, the first entry is popped, handled, and its promise
    follows the promise the handler returned. *)
Fixpoint processQueue_ (pending : list PendingPromiseHandler) (c : DataChannel)
  : Completion unit :=
  match pending with
  | [] => Normal tt c
  | entry :: rest =>
      if isHandling (toPeerDataQueue_ c) then
        let c := set_toPeerDataQueue_
                   {| queue_ := rest; handler_ := handler_ (toPeerDataQueue_ c) |} c in
        let* (p, c) := handleSendDataToPeer_ (thing entry) c in
        processQueue_ rest (settle (completion entry) p c)
      else Normal tt c
  end.

(** Modelled from the spec: [toPeerDataQueue_.setHandler(this.handleSendDataToPeer_)]
    makes consumption active and drains what had accumulated. *)
Definition setHandler (c : DataChannel) : Completion unit :=
  let q := toPeerDataQueue_ c in
  let c := set_toPeerDataQueue_ {| queue_ := queue_ q; handler_ := Some HandleSendDataToPeer |} c in
  processQueue_ (queue_ q) c.

(** Modelled from the spec: [toPeerDataQueue_.handle(x)].  With
    consumption active the thing goes to the handler as it arrives;
    suspended, it accumulates and a new pending promise stands for it. *)
Definition toPeerDataQueue_handle (x : Data) (c : DataChannel) : Completion Promise :=
  let q := toPeerDataQueue_ c in
  if isHandling q then handleSendDataToPeer_ x c
  else
    let id := next_promise c in
    Normal (PromiseDeferred id)
      (set_next_promise (S id)
         (set_toPeerDataQueue_
            {| queue_ := queue_ q ++ [{| thing := x; completion := id |}];
               handler_ := handler_ q |} c)).

(** [chunkStringOntoQueue_] *)
Definition chunkStringOntoQueue_ (s : jsstring) (c : DataChannel) : Completion Promise :=
  toPeerDataQueue_handle (StringData s) c.

(** [chunks.forEach((chunk) => { promises.push(this.toPeerDataQueue_.handle({buffer: chunk})); })] *)
Fixpoint forEach_handle (chunks : list ArrayBuffer) (promises : list Promise)
    (c : DataChannel) : Completion (list Promise) :=
  match chunks with
  | [] => Normal promises c
  | ch :: rest =>
      let* (p, c) := toPeerDataQueue_handle (BufferData ch) c in
      forEach_handle rest (promises ++ [p]) c
  end.

(** [chunkBufferOntoQueue_] *)
Definition chunkBufferOntoQueue_ (b : ArrayBuffer) (c : DataChannel) : Completion Promise :=
  let chunks := chunk b (Z.to_nat CHUNK_SIZE) in
  let* (promises, c) := forEach_handle chunks [] c in
  Normal (PromiseAll promises) c.

(** [data.buffer.byteLength]: defined on an [ArrayBuffer] only. *)
Definition property_byteLength (v : JsValue) : option Z :=
  match v with JsArrayBuffer b => Some (byteLength b) | _ => None end.

(** The [byteLength] variable of [send]; [None] is [undefined]. *)
Definition send_byteLength (data : Data) : option Z :=
  match str data with
  | JsString s => Some (string_length s * 2)
  | _ => if truthy (buffer data) then property_byteLength (buffer data) else None
  end.

(** [byteLength > MAX_MESSAGE_SIZE]; false when [byteLength] is [undefined]. *)
Definition exceeds (byteLength : option Z) (limit : Z) : bool :=
  match byteLength with Some n => n >? limit | None => false end.

(** [send]: the result is [None] when the function runs off its end
    without a [return]. *)
Definition send (data : Data) (c : DataChannel) : Completion (option Promise) :=
  if negb (typeof_string (str data)
           || (typeof_object (buffer data) && instanceof_ArrayBuffer (buffer data)))
  then Normal (Some (PromiseReject (MalformedData data))) c
  else if exceeds (send_byteLength data) MAX_MESSAGE_SIZE
  then Normal (Some (PromiseReject DataTooBig)) c
  else
    match str data with
    | JsString s =>
        let* (p, c) := chunkStringOntoQueue_ s c in Normal (Some p) c
    | _ =>
        if truthy (buffer data) then
          match buffer data with
          | JsArrayBuffer b =>
              let* (p, c) := chunkBufferOntoQueue_ b c in Normal (Some p) c
          | _ => Normal None c (* excluded by the first test *)
          end
        else Normal None c
    end.

(** The callback of [getBufferedAmount().then(...)] in
    [conjestionControlSendHandler], run with the amount sampled. *)
Definition onBufferedAmount (bufferedAmount : Z) (c : DataChannel) : Completion unit :=
  if bufferedAmount + CHUNK_SIZE >? PC_QUEUE_LIMIT then
    let c := if isHandling (toPeerDataQueue_ c)
             then set_toPeerDataQueue_ (stopHandling (toPeerDataQueue_ c)) c
             else c in
    (* setTimeout(this.conjestionControlSendHandler, 20) *)
    Normal tt (set_timeouts (timeouts c ++ [20]) c)
  else
    if negb (isHandling (toPeerDataQueue_ c)) then setHandler c
    else Normal tt c.

(** *** The inbound path *)

(** Modelled from the spec: [dataFromPeerQueue.handle(x)].  The class sets
    no handler on this queue; what it is handed is "pushed, in arrival
    order, to a single-consumer queue that the application drains at its
    own pace".  The list keeps everything handed over, in that order. *)
Definition dataFromPeerQueue_handle (x : Data) (c : DataChannel) : DataChannel :=
  set_dataFromPeerQueue (dataFromPeerQueue c ++ [x]) c.

(** [onDataFromPeer_]: nothing catches what [JSON.stringify(message)]
    throws, so the exception leaves the listener and the log is not
    written. *)
Definition onDataFromPeer_ (message : Message) (c : DataChannel) : Completion unit :=
  match text message with
  | JsString s => Normal tt (dataFromPeerQueue_handle (StringData s) c)
  | _ =>
      match message_buffer message with
      | JsArrayBuffer b => Normal tt (dataFromPeerQueue_handle (BufferData b) c)
      | _ =>
          let* (_, c) := JSON_stringify [text message; message_buffer message] c in
          Normal tt (set_log (log c ++ [ErrorUnexpectedData message]) c)
      end
  end.

(** *** Construction and the two lifecycle promises *)

(** [new DataChannel(id)]: both queues empty and without handler, both
    promises pending, [opennedSuccessfully_] not yet assigned, the
    [getReadyState()] request on its way. *)
Definition constructor (rtc : RTC) : DataChannel :=
  {| dataFromPeerQueue := [];
     toPeerDataQueue_ := new_Queue;
     onceOpened := Pending;
     onceClosed := Pending;
     opennedSuccessfully_ := None;
     rtcDataChannel_ := rtc;
     readyState_requested := true;
     onopen_listener := false;
     bufferedAmount_requested := 0;
     timeouts := [];
     settled := ∅;
     next_promise := 0;
     wire := [];
     log := [] |}.

(** [F] of [onceOpened]: fulfils the promise if it is still pending, and
    then the callback of [this.onceOpened.then(...)] runs. *)
Definition fulfillOpened (c : DataChannel) : Completion unit :=
  match onceOpened c with
  | Pending =>
      let c := set_onceOpened (Settled Fulfilled) c in
      let c := set_opennedSuccessfully_ (Some true) c in
      setHandler c
  | Settled _ => Normal tt c
  end.

(** [this.rejectOpened_(e)]: no effect on a settled promise. *)
Definition rejectOpened_ (e : Error) (c : DataChannel) : DataChannel :=
  match onceOpened c with
  | Pending => set_onceOpened (Settled (Rejected e)) c
  | Settled _ => c
  end.

(** [!this.opennedSuccessfully_]: true of [undefined] and of [false]. *)
Definition not_opennedSuccessfully_ (c : DataChannel) : bool :=
  match opennedSuccessfully_ c with
  | Some true => false
  | Some false | None => true
  end.

(** [F] of [onceClosed], and the callback of [this.onceClosed.then(...)]. *)
Definition fulfillClosed (c : DataChannel) : DataChannel :=
  match onceClosed c with
  | Pending =>
      let c := set_onceClosed (Settled Fulfilled) c in
      let c := if not_opennedSuccessfully_ c
               then rejectOpened_ FailedToOpenError c
               else c in
      set_opennedSuccessfully_ (Some false) c
  | Settled _ => c
  end.

(** [close] *)
Definition close (c : DataChannel) : DataChannel :=
  set_rtcDataChannel_ (rtc_close (rtcDataChannel_ c)) c.

(** The callback of [getReadyState().then(...)]. *)
Definition onReadyState (state : string) (c : DataChannel) : Completion unit :=
  if String.eqb state "open" then fulfillOpened c
  else if String.eqb state "connecting"
  then Normal tt (set_onopen_listener true c)
  else Normal tt c.

(** *** The event loop *)

(** What can happen to a channel: an answer or an event from the
    transport, a timer, a call by the application, or the transport
    changing state on its own (bytes flushed, the peer gone). *)
Inductive Event : Type :=
| ReadyState (state : string)
| OnOpen
| OnClose
| OnMessage (m : Message)
| OnError
| BufferedAmount (n : Z)
| TimerFired
| Send (d : Data)
| Close
| Transport (r : RTC).

(** One task of the event loop.  An answer nobody waits for and a timer
    that is not armed do nothing. *)
Definition step (c : DataChannel) (ev : Event) : DataChannel :=
  match ev with
  | ReadyState state =>
      if readyState_requested c
      then after (onReadyState state (set_readyState_requested false c))
      else c
  | OnOpen => if onopen_listener c then after (fulfillOpened c) else c
  | OnClose => fulfillClosed c
  | OnMessage m => after (onDataFromPeer_ m c)
  | OnError => set_log (log c ++ [ErrorRtcOnerror]) c
  | BufferedAmount n =>
      match bufferedAmount_requested c with
      | O => c
      | S k => after (onBufferedAmount n (set_bufferedAmount_requested k c))
      end
  | TimerFired =>
      match timeouts c with
      | [] => c
      | _ :: rest => conjestionControlSendHandler (set_timeouts rest c)
      end
  | Send d => after (send d c)
  | Close => close c
  | Transport r => set_rtcDataChannel_ r c
  end.

Definition run (c : DataChannel) (evs : list Event) : DataChannel :=
  fold_left step evs c.

(** The states a constructed channel can be in. *)
Inductive reachable : DataChannel -> Prop :=
| reachable_constructor rtc : reachable (constructor rtc)
| reachable_step c ev : reachable c -> reachable (step c ev).

(** *** The channel state of the spec, read off the two promises *)

Inductive ChannelState : Type := Connecting | Open | Closed | FailedToOpen.

Definition channel_state (c : DataChannel) : ChannelState :=
  match onceOpened c, onceClosed c with
  | Settled (Rejected _), _ => FailedToOpen
  | Settled Fulfilled, Pending => Open
  | Settled Fulfilled, Settled _ => Closed
  | Pending, _ => Connecting
  end.

End DataChannel.

Arguments Normal {RTC A} a c.
Arguments Throw {RTC A} e c.

(** * The vocabulary of the properties *)

(** The least number of pieces of [b] bytes that cover [a] bytes. *)
Definition ceil_div (a b : Z) : Z := (a + b - 1) / b.

(** The part of a channel that the open and close events act on. *)
Record Lifecycle : Type := mkLifecycle {
  l_onceOpened : PromiseState;
  l_onceClosed : PromiseState;
  l_opennedSuccessfully_ : option bool;
  l_readyState_requested : bool;
  l_onopen_listener : bool
}.

(** The lifecycle of a channel. *)
Definition lifecycle_of {RTC : Type} (c : DataChannel (RTC := RTC)) : Lifecycle :=
  {| l_onceOpened := onceOpened c;
     l_onceClosed := onceClosed c;
     l_opennedSuccessfully_ := opennedSuccessfully_ c;
     l_readyState_requested := readyState_requested c;
     l_onopen_listener := onopen_listener c |}.

(** The calls of the transport's send primitives that handing [d] to
    [handleSendDataToPeer_] makes. *)
Definition calls_of (d : Data) : list RtcCall :=
  match str d with
  | JsString s => [CallSend s]
  | _ => if truthy (buffer d) then [CallSendBuffer (buffer d)] else []
  end.

(** [c] has never handed anything to the transport, and nothing is under
    way that would: no handler, no request for the buffered amount, no
    timer. *)
Definition idle {RTC : Type} (c : DataChannel (RTC := RTC)) : Prop :=
  isHandling (toPeerDataQueue_ c) = false
  /\ bufferedAmount_requested c = 0%nat
  /\ timeouts c = []
  /\ wire c = [].

(** [opennedSuccessfully_] is true only of a channel whose [onceOpened]
    is fulfilled, and [onceClosed] settles no later than [onceOpened]. *)
Definition lifecycle_ok (l : Lifecycle) : Prop :=
  (l_opennedSuccessfully_ l = Some true -> l_onceOpened l = Settled Fulfilled)
  /\ (l_onceOpened l = Pending -> l_onceClosed l = Pending).

(** The classification of the spec: a message with a string [text] is a
    text payload, else one with an [ArrayBuffer] is a binary payload,
    else it is none. *)
Definition classify (m : Message) : option Data :=
  match text m, message_buffer m with
  | JsString s, _ => Some (StringData s)
  | _, JsArrayBuffer b => Some (BufferData b)
  | _, _ => None
  end.

(** The messages that are neither. *)
Definition unrecognized (m : Message) : bool :=
  match classify m with Some _ => false | None => true end.

(** The messages that cannot be written to the log: those that are
    neither and hold a cyclic object, on which [JSON.stringify] throws. *)
Definition unloggable (m : Message) : bool :=
  unrecognized m && negb (forallb stringifiable [text m; message_buffer m]).

Section Vocabulary.

Context {RTC : Type}.
Variable rtc_send : RTC -> jsstring -> Exception + RTC.
Variable rtc_sendBuffer : RTC -> JsValue -> Exception + RTC.

Implicit Types (c : DataChannel (RTC := RTC)) (ev : Event (RTC := RTC)).

(** What [F] of [onceOpened] and its reaction do to the lifecycle. *)
Definition lifecycle_open (l : Lifecycle) : Lifecycle :=
  match l_onceOpened l with
  | Pending =>
      {| l_onceOpened := Settled Fulfilled;
         l_onceClosed := l_onceClosed l;
         l_opennedSuccessfully_ := Some true;
         l_readyState_requested := l_readyState_requested l;
         l_onopen_listener := l_onopen_listener l |}
  | Settled _ => l
  end.

(** What [F] of [onceClosed] and its reaction do to the lifecycle. *)
Definition lifecycle_close (l : Lifecycle) : Lifecycle :=
  match l_onceClosed l with
  | Pending =>
      {| l_onceOpened :=
           match l_opennedSuccessfully_ l, l_onceOpened l with
           | Some true, o => o
           | _, Pending => Settled (Rejected FailedToOpenError)
           | _, o => o
           end;
         l_onceClosed := Settled Fulfilled;
         l_opennedSuccessfully_ := Some false;
         l_readyState_requested := l_readyState_requested l;
         l_onopen_listener := l_onopen_listener l |}
  | Settled _ => l
  end.

(** What an event does to the lifecycle; only the answer to
    [getReadyState()] and the open and close events do anything. *)
Definition lifecycle_step (l : Lifecycle) ev : Lifecycle :=
  match ev with
  | ReadyState state =>
      if l_readyState_requested l then
        let l := {| l_onceOpened := l_onceOpened l;
                    l_onceClosed := l_onceClosed l;
                    l_opennedSuccessfully_ := l_opennedSuccessfully_ l;
                    l_readyState_requested := false;
                    l_onopen_listener := l_onopen_listener l |} in
        if String.eqb state "open" then lifecycle_open l
        else if String.eqb state "connecting" then
          {| l_onceOpened := l_onceOpened l;
             l_onceClosed := l_onceClosed l;
             l_opennedSuccessfully_ := l_opennedSuccessfully_ l;
             l_readyState_requested := l_readyState_requested l;
             l_onopen_listener := true |}
        else l
      else l
  | OnOpen => if l_onopen_listener l then lifecycle_open l else l
  | OnClose => lifecycle_close l
  | _ => l
  end.

(** What the outbound path leaves alone: it touches the transport, the
    requests for its buffered amount, the entries of the outbound queue
    and their promises, and the two records, nothing else. *)
Record outbound_frame c c' : Prop := {
  frame_lifecycle : lifecycle_of c' = lifecycle_of c;
  frame_dataFromPeerQueue : dataFromPeerQueue c' = dataFromPeerQueue c;
  frame_timeouts : timeouts c' = timeouts c;
  frame_handler_ : handler_ (toPeerDataQueue_ c') = handler_ (toPeerDataQueue_ c);
  frame_requested : (bufferedAmount_requested c <= bufferedAmount_requested c')%nat
}.

(** [offered ds c c']: between [c] and [c'] the things [ds] were handed
    to the outbound queue, in that order.  With consumption active they
    went to the transport as they arrived; suspended, they accumulated
    behind what was queued already. *)
Definition offered (ds : list Data) c c' : Prop :=
  outbound_frame c c'
  /\ if isHandling (toPeerDataQueue_ c)
     then wire c' = wire c ++ flat_map calls_of ds
          /\ queue_ (toPeerDataQueue_ c') = queue_ (toPeerDataQueue_ c)
     else things (toPeerDataQueue_ c') = things (toPeerDataQueue_ c) ++ ds
          /\ wire c' = wire c
          /\ bufferedAmount_requested c' = bufferedAmount_requested c.

(** The transport's send primitive throws [e] when handed [data]. *)
Definition transport_throws (data : Data) c (e : Exception) : Prop :=
  match str data with
  | JsString s => rtc_send (rtcDataChannel_ c) s = inl e
  | _ => truthy (buffer data) = true
         /\ rtc_sendBuffer (rtcDataChannel_ c) (buffer data) = inl e
  end.

End Vocabulary.

(** * More of the class, and the vocabulary of its properties *)

(** How string concatenation renders [opennedSuccessfully_]. *)
Definition render_flag (flag : option bool) : string :=
  match flag with
  | None => "undefined"
  | Some true => "true"
  | Some false => "false"
  end.

(** How string concatenation renders the label: [label_] is [undefined]
    until [fromId] has stored the transport's answer. *)
Definition render_label (label_ : option string) : string :=
  match label_ with
  | None => "undefined"
  | Some l => l
  end.

(** [toString]; the label, which no other method reads, is kept beside
    the channel. *)
Definition toString {RTC : Type} (label_ : option string)
    (c : DataChannel (RTC := RTC)) : string :=
  (render_label label_ ++ ": opennedSuccessfully_=" ++ render_flag (opennedSuccessfully_ c))%string.

(** The channel state as a function of the lifecycle. *)
Definition lifecycle_state (l : Lifecycle) : ChannelState :=
  match l_onceOpened l, l_onceClosed l with
  | Settled (Rejected _), _ => FailedToOpen
  | Settled Fulfilled, Pending => Open
  | Settled Fulfilled, Settled _ => Closed
  | Pending, _ => Connecting
  end.

(** The two promises and the flag agree: the flag is unset while both
    promises are pending, true while the channel is open, false once it
    has closed; [onceClosed] is never rejected, and [onceOpened] only with
    the error of the close reaction. *)
Definition lifecycle_consistent (l : Lifecycle) : Prop :=
  match l_onceOpened l, l_onceClosed l with
  | Pending, Pending => l_opennedSuccessfully_ l = None
  | Settled Fulfilled, Pending => l_opennedSuccessfully_ l = Some true
  | Settled Fulfilled, Settled Fulfilled => l_opennedSuccessfully_ l = Some false
  | Settled (Rejected e), Settled Fulfilled =>
      l_opennedSuccessfully_ l = Some false /\ e = FailedToOpenError
  | _, _ => False
  end.

(** The moves of the channel state that the class makes. *)
Definition transition (s s' : ChannelState) : Prop :=
  s' = s
  \/ (s = Connecting /\ s' = Open)
  \/ (s = Connecting /\ s' = FailedToOpen)
  \/ (s = Open /\ s' = Closed).

(** What [send] hands to the outbound queue for a payload: nothing when
    it rejects it, the text, or the chunks of the buffer. *)
Definition units_of (data : Data) : list Data :=
  if negb (typeof_string (str data)
           || (typeof_object (buffer data) && instanceof_ArrayBuffer (buffer data)))
  then []
  else
    match str data, buffer data with
    | JsString s, _ =>
        if string_length s * 2 >? MAX_MESSAGE_SIZE then [] else [StringData s]
    | _, JsArrayBuffer b =>
        if byteLength b >? MAX_MESSAGE_SIZE then []
        else map BufferData (chunk b (Z.to_nat CHUNK_SIZE))
    | _, _ => []
    end.

(** What [send] puts on the outbound queue: a text [{str: s}] or a
    chunk [{buffer: b}]. *)
Definition chunk_unit (d : Data) : Prop :=
  (exists s, d = StringData s) \/ (exists b, d = BufferData b).

(** A call of the transport that passes a string, or an [ArrayBuffer]. *)
Definition typed_call (call : RtcCall) : Prop :=
  match call with
  | CallSend _ => True
  | CallSendBuffer v => exists b, v = JsArrayBuffer b
  end.

(** A call of [sendBuffer] with a non-empty [ArrayBuffer] of at most
    CHUNK_SIZE bytes; text is not bounded. *)
Definition bounded_call (call : RtcCall) : Prop :=
  match call with
  | CallSend _ => True
  | CallSendBuffer v =>
      exists b, v = JsArrayBuffer b /\ 0 < byteLength b <= CHUNK_SIZE
  end.

(** A promise that nothing has settled: one made by the queue for a
    waiting entry, or [Promise.all] over at least one of them. *)
Definition waiting (p : Promise) : Prop :=
  (exists id, p = PromiseDeferred id)
  \/ (exists ids, ids <> [] /\ p = PromiseAll (map PromiseDeferred ids)).

(** How the drain step settles a chunk's promise: fulfilled, or rejected
    with the delivery error. *)
Definition delivery_outcome (r : Settlement) : Prop :=
  r = Fulfilled \/ exists e, r = Rejected (ErrorInSend e).

(** The promises of the entries that wait in the queue. *)
Definition queued_promises (q : Queue) : list nat := map completion (queue_ q).

(** The book-keeping of the outbound queue's promises: the promises
    handed out so far are those settled and those of the waiting entries,
    which are pending and all different; what is settled is settled with a
    delivery outcome; and what waits is a text or a chunk. *)
Record promises_accounted {RTC : Type} (c : DataChannel (RTC := RTC)) : Prop := {
  accounted_all : forall id,
    (id < next_promise c)%nat
    <-> is_Some (settled c !! id) \/ In id (queued_promises (toPeerDataQueue_ c));
  accounted_pending : forall id,
    In id (queued_promises (toPeerDataQueue_ c)) -> settled c !! id = None;
  accounted_distinct : List.NoDup (queued_promises (toPeerDataQueue_ c));
  accounted_outcome : forall id r, settled c !! id = Some r -> delivery_outcome r;
  accounted_units : Forall chunk_unit (things (toPeerDataQueue_ c))
}.

Section Traces.

Context {RTC : Type}.

Implicit Types (ev : Event (RTC := RTC)) (evs : list (Event (RTC := RTC))).

(** The answers to [getReadyState()]. *)
Definition is_ReadyState ev : bool :=
  match ev with ReadyState _ => true | _ => false end.

(** The transport's close events. *)
Definition is_OnClose ev : bool :=
  match ev with OnClose => true | _ => false end.

(** Everything the calls of [send] in a trace handed to the outbound
    queue, in order. *)
Definition sent_units evs : list Data :=
  flat_map (fun ev => match ev with Send d => units_of d | _ => [] end) evs.

(** The messages the transport delivered in a trace, in order. *)
Definition messages_of evs : list Message :=
  flat_map (fun ev => match ev with OnMessage m => [m] | _ => [] end) evs.

(** The events that cannot resume a suspended queue: all but a sample
    of the buffered amount that is under the ceiling. *)
Definition over_ceiling ev : bool :=
  match ev with
  | BufferedAmount n => n + CHUNK_SIZE >? PC_QUEUE_LIMIT
  | _ => true
  end.

End Traces.

(** ** The channel on [SimpleTransport], and some scenarios *)

Module Simple.

Definition step := step SimpleTransport.send SimpleTransport.sendBuffer SimpleTransport.close.
Definition run := run SimpleTransport.send SimpleTransport.sendBuffer SimpleTransport.close.
Definition send := send SimpleTransport.send SimpleTransport.sendBuffer.

(** A channel just constructed on an open transport. *)
Definition fresh : DataChannel := constructor SimpleTransport.opened.

(** The text "hi". *)
Definition hi : jsstring := [104; 105].

(** A text of 2^52 + 1 code units: its byte length, 2^53 + 2, is over
    MAX_MESSAGE_SIZE. *)
Definition long_text : jsstring := repeat 0 (Z.to_nat (2 ^ 52 + 1)).

(** The channel opens and sends three bytes; the transport reports
    300000 bytes buffered, which suspends consumption; a text is sent and
    waits in the queue; then the transport closes. *)
Definition closed_mid_send : list (Event (RTC := SimpleTransport.RTC)) :=
  [ ReadyState "open";
    Send (BufferData [1; 2; 3]);
    BufferedAmount 300000;
    Send (StringData hi);
    Transport SimpleTransport.closed;
    OnClose ].

End Simple.

(** ** More scenarios on [SimpleTransport] *)

Module Scenario.

(** A message whose [text] is an object that refers back to itself, as
    [var o = {}; o.self = o] makes one. *)
Definition cyclic_message : Message :=
  {| text := JsObject true; message_buffer := JsUndefined |}.

(** A text, a message with neither field, and three bytes. *)
Definition three_messages : list Message :=
  [ {| text := JsString Simple.hi; message_buffer := JsUndefined |};
    {| text := JsUndefined; message_buffer := JsUndefined |};
    {| text := JsUndefined; message_buffer := JsArrayBuffer [1; 2; 3] |} ].

(** The channel has opened and sent three bytes, and a sample of 300000
    buffered bytes has suspended consumption. *)
Definition suspended : DataChannel (RTC := SimpleTransport.RTC) :=
  Simple.run Simple.fresh
    [ReadyState "open"; Send (BufferData [1; 2; 3]); BufferedAmount 300000].

(** The channel has opened after a text was sent to it. *)
Definition opened_late : DataChannel (RTC := SimpleTransport.RTC) :=
  Simple.run Simple.fresh [Send (StringData Simple.hi); ReadyState "open"].

(** The channel closed before it opened. *)
Definition failed : DataChannel (RTC := SimpleTransport.RTC) :=
  Simple.run Simple.fresh [ReadyState "connecting"; OnClose].

End Scenario.

(** * Properties *)

(** ** The chunker *)

Lemma ceil_div_spec (a b q : Z) :
  0 < b -> (ceil_div a b = q <-> (q - 1) * b < a <= q * b).
Proof.
  intros Hb. unfold ceil_div. split.
  - intros <-.
    pose proof (Z.div_mod (a + b - 1) b ltac:(lia)).
    pose proof (Z.mod_pos_bound (a + b - 1) b Hb). nia.
  - intros [Hlo Hhi]. symmetry. apply (Z.div_unique _ _ _ (a + b - 1 - b * q)); lia.
Qed.

Lemma chunk_nil (size : nat) : chunk [] size = [].
Proof. now simp chunk. Qed.

(** Cutting a non-empty buffer: the first [size] bytes, then the rest. *)
Lemma chunk_cons (buf : ArrayBuffer) (size : nat) :
  buf <> [] -> (0 < size)%nat ->
  chunk buf size = take size buf :: chunk (drop size buf) size.
Proof.
  intros Hne Hsize. destruct buf as [|b bs]; [congruence|].
  destruct size as [|n]; [lia|]. now simp chunk.
Qed.

Lemma chunk_concat (buf : ArrayBuffer) (size : nat) :
  (0 < size)%nat -> concat (chunk buf size) = buf.
Proof.
  intros Hsize. funelim (chunk buf size); simp chunk; try reflexivity; [lia|].
  cbn [concat]. rewrite H by lia. apply take_drop.
Qed.

Lemma chunk_sizes (buf : ArrayBuffer) (size : nat) :
  Forall (fun ch => (length ch <= size)%nat) (chunk buf size).
Proof.
  funelim (chunk buf size); simp chunk; try constructor; [|assumption].
  rewrite length_take. lia.
Qed.

Lemma chunk_nonempty (buf : ArrayBuffer) (size : nat) :
  Forall (fun ch => ch <> []) (chunk buf size).
Proof.
  funelim (chunk buf size); simp chunk; try constructor; [|assumption].
  simpl. congruence.
Qed.

Lemma chunk_count (buf : ArrayBuffer) (size : nat) :
  (0 < size)%nat ->
  Z.of_nat (length (chunk buf size)) = ceil_div (byteLength buf) (Z.of_nat size).
Proof.
  intros Hsize. unfold byteLength.
  funelim (chunk buf size); simp chunk.
  - symmetry. apply ceil_div_spec; simpl; lia.
  - lia.
  - cbn [length]. rewrite Nat2Z.inj_succ, H by lia. clear H Heqcall.
    symmetry. apply ceil_div_spec; [lia|].
    rewrite length_drop. cbn [length].
    set (L := S (length bs)). set (S' := S n).
    destruct (Nat.le_gt_cases L S') as [Hle|Hgt].
    + replace (L - S')%nat with 0%nat by lia.
      assert (ceil_div (Z.of_nat 0) (Z.of_nat S') = 0) as ->.
      { apply ceil_div_spec; lia. }
      lia.
    + pose proof (proj1 (ceil_div_spec (Z.of_nat (L - S')) (Z.of_nat S') _ ltac:(lia)) eq_refl) as Hq.
      rewrite Nat2Z.inj_sub in Hq |- * by lia. nia.
Qed.

(** Scenario B of the spec: 40000 bytes make three chunks of 15360, 15360
    and 9280 bytes. *)
Example chunk_40000 :
  map byteLength (chunk (repeat 7 (Z.to_nat 40000)) (Z.to_nat CHUNK_SIZE))
  = [15360; 15360; 9280].
Proof. vm_compute. reflexivity. Qed.

(** ** Promises *)

(** The promise [send] returns for a binary payload is fulfilled when the
    promise of every chunk is. *)
Lemma status_PromiseAll (settled : gmap nat Settlement) (ps : list Promise) :
  status settled (PromiseAll ps) = IsFulfilled
  <-> Forall (fun p => status settled p = IsFulfilled) ps.
Proof.
  induction ps as [|p ps IH].
  - split; [constructor|reflexivity].
  - change (status settled (PromiseAll (p :: ps)))
      with (match status settled p, status settled (PromiseAll ps) with
            | IsRejected, _ | _, IsRejected => IsRejected
            | IsFulfilled, IsFulfilled => IsFulfilled
            | _, _ => StillPending
            end).
    split.
    + intros H. constructor.
      * destruct (status settled p), (status settled (PromiseAll ps)); congruence.
      * apply IH.
        destruct (status settled p), (status settled (PromiseAll ps)); congruence.
    + intros H. inversion H as [|? ? Hp Hps]; subst.
      apply IH in Hps. now rewrite Hp, Hps.
Qed.

(** ** The channel *)

Section Properties.

Context {RTC : Type}.
Variable rtc_send : RTC -> jsstring -> Exception + RTC.
Variable rtc_sendBuffer : RTC -> JsValue -> Exception + RTC.
Variable rtc_close : RTC -> RTC.

Local Abbreviation handleSendDataToPeer_ := (handleSendDataToPeer_ rtc_send rtc_sendBuffer).
Local Abbreviation processQueue_ := (processQueue_ rtc_send rtc_sendBuffer).
Local Abbreviation setHandler := (setHandler rtc_send rtc_sendBuffer).
Local Abbreviation toPeerDataQueue_handle := (toPeerDataQueue_handle rtc_send rtc_sendBuffer).
Local Abbreviation forEach_handle := (forEach_handle rtc_send rtc_sendBuffer).
Local Abbreviation chunkBufferOntoQueue_ := (chunkBufferOntoQueue_ rtc_send rtc_sendBuffer).
Local Abbreviation chunkStringOntoQueue_ := (chunkStringOntoQueue_ rtc_send rtc_sendBuffer).
Local Abbreviation send := (send rtc_send rtc_sendBuffer).
Local Abbreviation onBufferedAmount := (onBufferedAmount rtc_send rtc_sendBuffer).
Local Abbreviation fulfillOpened := (fulfillOpened rtc_send rtc_sendBuffer).
Local Abbreviation onReadyState := (onReadyState rtc_send rtc_sendBuffer).
Local Abbreviation step := (step rtc_send rtc_sendBuffer rtc_close).
Local Abbreviation run := (run rtc_send rtc_sendBuffer rtc_close).
Local Abbreviation reachable := (reachable rtc_send rtc_sendBuffer rtc_close).
Local Abbreviation transport_throws := (transport_throws rtc_send rtc_sendBuffer).

Implicit Types (c : DataChannel (RTC := RTC)) (d : Data) (ev : Event (RTC := RTC)).

(** *** The inbound listener *)

(** Whether it returns or throws, [onDataFromPeer_] leaves everything but
    the inbound queue and the log as it was. *)
Lemma onDataFromPeer__frame (m : Message) c :
  exists q l, after (onDataFromPeer_ m c) = set_dataFromPeerQueue q (set_log l c).
Proof.
  unfold onDataFromPeer_, dataFromPeerQueue_handle, JSON_stringify.
  destruct (text m); try destruct (message_buffer m);
    try destruct (forallb stringifiable _); cbn [bind after];
    destruct c; cbn; eauto.
Qed.

(** *** The drain step *)

Lemma outbound_frame_refl c : outbound_frame c c.
Proof. constructor; auto. Qed.

Lemma outbound_frame_trans c1 c2 c3 :
  outbound_frame c1 c2 -> outbound_frame c2 c3 -> outbound_frame c1 c3.
Proof. intros [] []. constructor; try congruence. lia. Qed.

Lemma isHandling_handler_ (q q' : Queue) :
  handler_ q' = handler_ q -> isHandling q' = isHandling q.
Proof. unfold isHandling. now intros ->. Qed.

(** [handleSendDataToPeer_] always returns a promise, a settled one, and
    makes exactly the calls of [calls_of]. *)
Lemma handleSendDataToPeer__returns d c :
  exists p c',
    handleSendDataToPeer_ d c = Normal p c'
    /\ is_Some (settlement_of p)
    /\ outbound_frame c c'
    /\ queue_ (toPeerDataQueue_ c') = queue_ (toPeerDataQueue_ c)
    /\ settled c' = settled c
    /\ wire c' = wire c ++ calls_of d.
Proof.
  unfold handleSendDataToPeer_, calls_of, rtcDataChannel_send, rtcDataChannel_sendBuffer,
    JSON_stringify.
  destruct d as [s b]; cbn [str buffer].
  destruct s; try (destruct (truthy b) eqn:Hb); cbn -[forallb];
    repeat match goal with
      | |- context [rtc_send ?r ?s] => destruct (rtc_send r s) eqn:?
      | |- context [rtc_sendBuffer ?r ?s] => destruct (rtc_sendBuffer r s) eqn:?
      | |- context [forallb stringifiable ?f] => destruct (forallb stringifiable f) eqn:?
      end; cbn;
    eexists _, _; (split; [reflexivity|]); (split; [eexists; reflexivity|]);
    destruct c; cbn in *; repeat split; cbn; auto using app_nil_r; try lia.
Qed.

Lemma settle_frame id p c :
  outbound_frame c (settle id p c)
  /\ toPeerDataQueue_ (settle id p c) = toPeerDataQueue_ c
  /\ wire (settle id p c) = wire c
  /\ bufferedAmount_requested (settle id p c) = bufferedAmount_requested c.
Proof.
  unfold settle. destruct (settlement_of p); destruct c; cbn;
    repeat split; auto.
Qed.

(** With a handler set, the drain loop empties what had accumulated,
    handing each entry to the transport in queue order. *)
Lemma processQueue__returns (pending : list PendingPromiseHandler) c :
  isHandling (toPeerDataQueue_ c) = true ->
  exists c',
    processQueue_ pending c = Normal tt c'
    /\ outbound_frame c c'
    /\ queue_ (toPeerDataQueue_ c')
       = match pending with [] => queue_ (toPeerDataQueue_ c) | _ => [] end
    /\ wire c' = wire c ++ flat_map calls_of (map thing pending).
Proof.
  revert c. induction pending as [|entry rest IH]; intros c Hh; cbn [processQueue_].
  - exists c. rewrite app_nil_r. auto using outbound_frame_refl.
  - rewrite Hh.
    set (c1 := set_toPeerDataQueue_ _ c).
    assert (outbound_frame c c1 /\ wire c1 = wire c
            /\ queue_ (toPeerDataQueue_ c1) = rest) as (Hf1 & Hw1 & Hq1).
    { subst c1. destruct c; cbn. repeat split; auto. }
    destruct (handleSendDataToPeer__returns (thing entry) c1)
      as (p & c2 & -> & _ & Hf2 & Hq2 & _ & Hw2).
    cbn [bind].
    destruct (settle_frame (completion entry) p c2) as (Hf3 & Hq3 & Hw3 & _).
    destruct (IH (settle (completion entry) p c2)) as (c' & -> & Hf4 & Hq4 & Hw4).
    { rewrite Hq3. rewrite <- Hh.
      apply isHandling_handler_.
      rewrite (frame_handler_ _ _ Hf2). apply (frame_handler_ _ _ Hf1). }
    exists c'. split; [reflexivity|]. split; [|split].
    + eauto using outbound_frame_trans.
    + rewrite Hq4, Hq3, Hq2, Hq1. now destruct rest.
    + rewrite Hw4, Hw3, Hw2, Hw1. cbn [map flat_map]. now rewrite app_assoc.
Qed.

(** Installing the handler activates consumption and drains the queue;
    the lifecycle, the inbound queue and the timers are not touched. *)
Lemma setHandler_returns c :
  exists c',
    setHandler c = Normal tt c'
    /\ isHandling (toPeerDataQueue_ c') = true
    /\ queue_ (toPeerDataQueue_ c') = []
    /\ wire c' = wire c ++ flat_map calls_of (things (toPeerDataQueue_ c))
    /\ lifecycle_of c' = lifecycle_of c
    /\ dataFromPeerQueue c' = dataFromPeerQueue c
    /\ timeouts c' = timeouts c.
Proof.
  unfold setHandler.
  set (c1 := set_toPeerDataQueue_ _ c).
  destruct (processQueue__returns (queue_ (toPeerDataQueue_ c)) c1)
    as (c' & -> & [Hl Hd Ht Hh Hr] & Hq & Hw).
  { subst c1. now destruct c. }
  exists c'. split; [reflexivity|].
  assert (isHandling (toPeerDataQueue_ c') = true) as Hh'.
  { unfold isHandling. rewrite Hh. subst c1. now destruct c. }
  assert (queue_ (toPeerDataQueue_ c') = []) as Hq'.
  { rewrite Hq. subst c1. destruct c as [? [[|] ?]]; reflexivity. }
  subst c1. destruct c; cbn in *. unfold things. repeat split; auto.
Qed.

(** *** Handing things to the outbound queue *)

Lemma offered_nil c : offered [] c c.
Proof.
  split; [apply outbound_frame_refl|].
  destruct (isHandling _); rewrite app_nil_r; auto.
Qed.

Lemma offered_app ds1 ds2 c1 c2 c3 :
  offered ds1 c1 c2 -> offered ds2 c2 c3 -> offered (ds1 ++ ds2) c1 c3.
Proof.
  intros [Hf1 H1] [Hf2 H2]. split; [eauto using outbound_frame_trans|].
  rewrite (isHandling_handler_ _ _ (frame_handler_ _ _ Hf1)) in H2.
  destruct (isHandling (toPeerDataQueue_ c1)).
  - destruct H1 as [Hw1 Hq1], H2 as [Hw2 Hq2].
    rewrite flat_map_app, app_assoc. split; congruence.
  - destruct H1 as (Hq1 & Hw1 & Hr1), H2 as (Hq2 & Hw2 & Hr2).
    rewrite app_assoc. repeat split; congruence.
Qed.

Lemma toPeerDataQueue_handle_returns (x : Data) c :
  exists p c', toPeerDataQueue_handle x c = Normal p c' /\ offered [x] c c'.
Proof.
  unfold toPeerDataQueue_handle, offered.
  destruct (isHandling (toPeerDataQueue_ c)) eqn:Hh.
  - destruct (handleSendDataToPeer__returns x c) as (p & c' & -> & _ & Hf & Hq & _ & Hw).
    exists p, c'. cbn [flat_map]. rewrite app_nil_r. auto.
  - eexists _, _. split; [reflexivity|].
    destruct c; cbn in *. unfold things; cbn. rewrite map_app.
    repeat split; auto.
Qed.

Lemma forEach_handle_returns (chunks : list ArrayBuffer) (promises : list Promise) c :
  exists ps c',
    forEach_handle chunks promises c = Normal ps c'
    /\ length ps = (length promises + length chunks)%nat
    /\ offered (map BufferData chunks) c c'.
Proof.
  revert promises c. induction chunks as [|ch rest IH]; intros promises c.
  - exists promises, c. cbn. auto using offered_nil.
  - cbn [forEach_handle].
    destruct (toPeerDataQueue_handle_returns (BufferData ch) c) as (p & c1 & -> & Ho).
    cbn [bind].
    destruct (IH (promises ++ [p]) c1) as (ps & c' & -> & Hl & Ho').
    exists ps, c'. split; [reflexivity|]. split.
    + rewrite Hl, length_app. cbn. lia.
    + apply (offered_app [BufferData ch] _ _ _ _ Ho Ho').
Qed.

(** [send] never throws, and what it does to the channel is to offer
    some things to the outbound queue. *)
Lemma send_returns (data : Data) c :
  exists r c' ds, send data c = Normal r c' /\ offered ds c c'.
Proof.
  unfold send, chunkStringOntoQueue_, chunkBufferOntoQueue_.
  destruct (negb _); [eauto using offered_nil|].
  destruct (exceeds _ _); [eauto using offered_nil|].
  destruct data as [sv bv]; cbn [str buffer].
  destruct sv; destruct bv; cbn [truthy];
    repeat match goal with |- context [if ?b then _ else _] => destruct b end;
    eauto using offered_nil.
  all: match goal with
       | |- context [toPeerDataQueue_handle ?x ?c] =>
           destruct (toPeerDataQueue_handle_returns x c) as (p & c' & -> & Ho)
       | |- context [forEach_handle ?l ?ps ?c] =>
           destruct (forEach_handle_returns l ps c) as (ps' & c' & -> & _ & Ho)
       end; cbn; eauto.
Qed.

(** *** The lifecycle runs on its own *)

Lemma fulfillOpened_returns c :
  exists c',
    fulfillOpened c = Normal tt c'
    /\ lifecycle_of c' = lifecycle_open (lifecycle_of c)
    /\ dataFromPeerQueue c' = dataFromPeerQueue c
    /\ timeouts c' = timeouts c
    /\ match onceOpened c with
       | Pending =>
           isHandling (toPeerDataQueue_ c') = true
           /\ queue_ (toPeerDataQueue_ c') = []
           /\ wire c' = wire c ++ flat_map calls_of (things (toPeerDataQueue_ c))
       | Settled _ => c' = c
       end.
Proof.
  unfold fulfillOpened, lifecycle_open.
  destruct (onceOpened c) eqn:Ho.
  - match goal with |- context [setHandler ?x] =>
      destruct (setHandler_returns x) as (c' & -> & Hh & Hq & Hw & Hl & Hd & Ht)
    end.
    exists c'. split; [reflexivity|].
    rewrite Hl, Hd, Ht, Hw. destruct c; cbn in *. subst. repeat split; auto.
  - exists c. unfold lifecycle_of at 2. cbn. rewrite Ho. auto.
Qed.

(** The answer to a request for the buffered amount: over the ceiling,
    consumption is suspended and a timer of 20 ms armed; under it,
    consumption is active when the callback returns. *)
Lemma onBufferedAmount_returns (n : Z) c :
  exists c',
    onBufferedAmount n c = Normal tt c'
    /\ lifecycle_of c' = lifecycle_of c
    /\ dataFromPeerQueue c' = dataFromPeerQueue c
    /\ if n + CHUNK_SIZE >? PC_QUEUE_LIMIT
       then isHandling (toPeerDataQueue_ c') = false
            /\ timeouts c' = timeouts c ++ [20]
            /\ queue_ (toPeerDataQueue_ c') = queue_ (toPeerDataQueue_ c)
            /\ wire c' = wire c
            /\ bufferedAmount_requested c' = bufferedAmount_requested c
       else isHandling (toPeerDataQueue_ c') = true
            /\ timeouts c' = timeouts c
            /\ if isHandling (toPeerDataQueue_ c)
               then c' = c
               else queue_ (toPeerDataQueue_ c') = []
                    /\ wire c' = wire c ++ flat_map calls_of (things (toPeerDataQueue_ c)).
Proof.
  unfold onBufferedAmount.
  destruct (n + CHUNK_SIZE >? PC_QUEUE_LIMIT).
  - eexists. split; [reflexivity|].
    destruct (isHandling (toPeerDataQueue_ c)) eqn:Hh;
      destruct c; cbn in *; repeat split; auto.
  - destruct (isHandling (toPeerDataQueue_ c)) eqn:Hh; cbn [negb].
    + exists c. repeat split; auto.
    + destruct (setHandler_returns c) as (c' & -> & Hh' & Hq & Hw & Hl & Hd & Ht).
      exists c'. repeat split; auto.
Qed.

Lemma fulfillClosed_lifecycle c :
  lifecycle_of (fulfillClosed c) = lifecycle_close (lifecycle_of c).
Proof.
  unfold fulfillClosed, lifecycle_close, not_opennedSuccessfully_, rejectOpened_.
  destruct c as [? ? o cl fl ? ? ? ? ? ? ? ? ?]; cbn.
  destruct cl; [|reflexivity].
  destruct fl as [[|]|]; destruct o; reflexivity.
Qed.

(** The queues, the timers and the transport have no say in how the two
    promises evolve: a step acts on the lifecycle as [lifecycle_step]. *)
Lemma step_lifecycle c ev :
  lifecycle_of (step c ev) = lifecycle_step (lifecycle_of c) ev.
Proof.
  destruct ev as [state| | |m| |n| |d| |r]; cbn [step lifecycle_step].
  - change (l_readyState_requested (lifecycle_of c)) with (readyState_requested c).
    destruct (readyState_requested c) eqn:Hr; [|reflexivity].
    unfold onReadyState.
    destruct (String.eqb state "open").
    + destruct (fulfillOpened_returns (set_readyState_requested false c))
        as (c' & -> & Hl & _).
      cbn [after]. rewrite Hl. now destruct c.
    + destruct (String.eqb state "connecting"); now destruct c.
  - change (l_onopen_listener (lifecycle_of c)) with (onopen_listener c).
    destruct (onopen_listener c); [|reflexivity].
    now destruct (fulfillOpened_returns c) as (c' & -> & Hl & _).
  - apply fulfillClosed_lifecycle.
  - destruct (onDataFromPeer__frame m c) as (q & l & ->). now destruct c.
  - now destruct c.
  - destruct (bufferedAmount_requested c) as [|k] eqn:Hk; [reflexivity|].
    destruct (onBufferedAmount_returns n (set_bufferedAmount_requested k c))
      as (c' & -> & Hl & _).
    cbn [after]. rewrite Hl. now destruct c.
  - destruct (timeouts c) eqn:Ht; [reflexivity|]. now destruct c.
  - destruct (send_returns d c) as (res & c' & ds & -> & [[] _]). assumption.
  - now destruct c.
  - now destruct c.
Qed.

Lemma run_app c evs1 evs2 : run c (evs1 ++ evs2) = run (run c evs1) evs2.
Proof. apply fold_left_app. Qed.

Lemma run_lifecycle c evs :
  lifecycle_of (run c evs) = fold_left lifecycle_step evs (lifecycle_of c).
Proof.
  revert c. induction evs as [|ev evs IH]; intros c; [reflexivity|].
  cbn [run fold_left]. rewrite <- step_lifecycle. apply IH.
Qed.

Lemma reachable_run c evs : reachable c -> reachable (run c evs).
Proof.
  revert c. induction evs as [|ev evs IH]; intros c Hc; [assumption|].
  apply IH. now constructor.
Qed.

(** A settled promise stays as it is. *)
Lemma lifecycle_step_onceOpened_settled l ev r :
  l_onceOpened l = Settled r -> l_onceOpened (lifecycle_step l ev) = Settled r.
Proof.
  destruct l as [o cl fl rq li]; cbn. intros ->.
  destruct ev; cbn; try reflexivity; unfold lifecycle_open, lifecycle_close; cbn.
  - destruct rq; [|reflexivity].
    destruct (String.eqb state "open"); [reflexivity|].
    now destruct (String.eqb state "connecting").
  - now destruct li.
  - destruct cl; [|reflexivity]. now destruct fl as [[|]|].
Qed.

Lemma lifecycle_step_onceClosed_settled l ev r :
  l_onceClosed l = Settled r -> l_onceClosed (lifecycle_step l ev) = Settled r.
Proof.
  destruct l as [o cl fl rq li]; cbn. intros ->.
  destruct ev; cbn; try reflexivity; unfold lifecycle_open, lifecycle_close; cbn.
  - destruct rq; [|reflexivity].
    destruct (String.eqb state "open"); [now destruct o|].
    now destruct (String.eqb state "connecting").
  - destruct li; [|reflexivity]. now destruct o.
Qed.

Lemma step_onceOpened_settled c ev r :
  onceOpened c = Settled r -> onceOpened (step c ev) = Settled r.
Proof.
  intros H.
  change (l_onceOpened (lifecycle_of (step c ev)) = Settled r).
  rewrite step_lifecycle. now apply lifecycle_step_onceOpened_settled.
Qed.

Lemma step_onceClosed_settled c ev r :
  onceClosed c = Settled r -> onceClosed (step c ev) = Settled r.
Proof.
  intros H.
  change (l_onceClosed (lifecycle_of (step c ev)) = Settled r).
  rewrite step_lifecycle. now apply lifecycle_step_onceClosed_settled.
Qed.

Lemma run_onceOpened_settled c evs r :
  onceOpened c = Settled r -> onceOpened (run c evs) = Settled r.
Proof.
  revert c. induction evs as [|ev evs IH]; intros c H; [assumption|].
  apply IH. now apply step_onceOpened_settled.
Qed.

Lemma run_onceClosed_settled c evs r :
  onceClosed c = Settled r -> onceClosed (run c evs) = Settled r.
Proof.
  revert c. induction evs as [|ev evs IH]; intros c H; [assumption|].
  apply IH. now apply step_onceClosed_settled.
Qed.

Lemma lifecycle_step_ok l ev : lifecycle_ok l -> lifecycle_ok (lifecycle_step l ev).
Proof.
  destruct l as [o cl fl rq li]. unfold lifecycle_ok; cbn. intros [Hfl Ho].
  destruct ev; cbn; auto; unfold lifecycle_open, lifecycle_close; cbn.
  - destruct rq; [|auto]. destruct (String.eqb state "open").
    + destruct o; cbn; auto; split; auto; discriminate.
    + destruct (String.eqb state "connecting"); cbn; auto.
  - destruct li; [|auto]. destruct o; cbn; auto; split; auto; discriminate.
  - destruct cl; cbn; [|auto]. split; [discriminate|].
    destruct fl as [[|]|]; destruct o; try discriminate.
    specialize (Hfl eq_refl). discriminate.
Qed.

Lemma reachable_lifecycle_ok c : reachable c -> lifecycle_ok (lifecycle_of c).
Proof.
  induction 1 as [rtc|c ev Hc IH].
  - split; cbn; [discriminate|reflexivity].
  - rewrite step_lifecycle. now apply lifecycle_step_ok.
Qed.

(** *** Nothing moves before the channel has opened *)

Lemma step_idle c ev :
  onceOpened (step c ev) <> Settled Fulfilled -> idle c -> idle (step c ev).
Proof.
  unfold idle. intros Hno (Hh & Hr & Ht & Hw).
  destruct ev as [state| | |m| |n| |d| |r]; cbn [step] in *.
  - destruct (readyState_requested c); [|auto].
    unfold onReadyState in *.
    destruct (String.eqb state "open").
    + destruct (fulfillOpened_returns (set_readyState_requested false c))
        as (c' & Heq & Hl & _ & _ & Hcase).
      rewrite Heq in *. cbn [after] in *.
      destruct (onceOpened (set_readyState_requested false c)) eqn:Ho.
      * exfalso. apply Hno.
        change (l_onceOpened (lifecycle_of c') = Settled Fulfilled).
        rewrite Hl. unfold lifecycle_open. cbn. now rewrite Ho.
      * subst c'. now destruct c.
    + destruct (String.eqb state "connecting"); now destruct c.
  - destruct (onopen_listener c); [|auto].
    destruct (fulfillOpened_returns c) as (c' & Heq & Hl & _ & _ & Hcase).
    rewrite Heq in *. cbn [after] in *.
    destruct (onceOpened c) eqn:Ho.
    + exfalso. apply Hno.
      change (l_onceOpened (lifecycle_of c') = Settled Fulfilled).
      rewrite Hl. unfold lifecycle_open. cbn. now rewrite Ho.
    + subst c'. auto.
  - unfold fulfillClosed, rejectOpened_, not_opennedSuccessfully_.
    destruct c as [? ? o cl fl ? ? ? ? ? ? ? ? ?]; cbn in *.
    destruct cl; cbn; auto. destruct fl as [[|]|]; destruct o; cbn; auto.
  - destruct (onDataFromPeer__frame m c) as (q & l & ->). now destruct c.
  - now destruct c.
  - rewrite Hr. auto.
  - rewrite Ht. auto.
  - destruct (send_returns d c) as (res & c' & ds & -> & [Hf Ho]).
    cbn [after]. rewrite Hh in Ho. destruct Ho as (_ & Hw' & Hr').
    rewrite (isHandling_handler_ _ _ (frame_handler_ _ _ Hf)).
    rewrite (frame_timeouts _ _ Hf). repeat split; congruence.
  - now destruct c.
  - now destruct c.
Qed.

(** Until [onceOpened] is fulfilled the outbound queue has no handler,
    no poll and no timer is under way, and the transport's send
    primitives have not been called. *)
Lemma reachable_idle c :
  reachable c -> onceOpened c <> Settled Fulfilled -> idle c.
Proof.
  induction 1 as [rtc|c ev Hc IH]; intros Hno.
  - repeat split.
  - apply step_idle; [assumption|]. apply IH.
    intros Ho. apply Hno. now apply step_onceOpened_settled.
Qed.

(** *** The chunker at work in [send] *)

Lemma calls_of_BufferData (chunks : list ArrayBuffer) :
  flat_map calls_of (map BufferData chunks)
  = map (fun ch => CallSendBuffer (JsArrayBuffer ch)) chunks.
Proof. induction chunks as [|ch rest IH]; cbn; congruence. Qed.

Lemma gtb_false (n m : Z) : n <= m -> (n >? m) = false.
Proof. intros H. destruct (Z.gtb_spec n m); [lia|reflexivity]. Qed.

Lemma gtb_true (n m : Z) : n > m -> (n >? m) = true.
Proof. intros H. destruct (Z.gtb_spec n m); [reflexivity|lia]. Qed.

Lemma CHUNK_SIZE_nat : Z.of_nat (Z.to_nat CHUNK_SIZE) = CHUNK_SIZE.
Proof. reflexivity. Qed.

(** C1.  For every binary payload of byte length L (an [ArrayBuffer], so
    L is at most 2^53 - 1), [send] hands the outbound queue exactly
    ceil(L / CHUNK_SIZE) chunks, CHUNK_SIZE being 15 * 1024 bytes; each
    chunk has at most CHUNK_SIZE bytes, and the chunks, concatenated in
    the order they are handed over, are the original bytes.  Handed over
    means: appended to the queue when consumption is suspended, passed to
    the transport's [sendBuffer] one after the other when it is active. *)
Theorem send_binary_chunks (data : Data) (b : ArrayBuffer) c :
  typeof_string (str data) = false ->
  buffer data = JsArrayBuffer b ->
  wf_ArrayBuffer b ->
  exists (chunks : list ArrayBuffer) (promises : list Promise) c',
    send data c = Normal (Some (PromiseAll promises)) c'
    /\ CHUNK_SIZE = 15 * 1024
    /\ Z.of_nat (length chunks) = ceil_div (byteLength b) CHUNK_SIZE
    /\ Forall (fun ch => byteLength ch <= CHUNK_SIZE) chunks
    /\ concat chunks = b
    /\ length promises = length chunks
    /\ if isHandling (toPeerDataQueue_ c)
       then wire c' = wire c ++ map (fun ch => CallSendBuffer (JsArrayBuffer ch)) chunks
            /\ queue_ (toPeerDataQueue_ c') = queue_ (toPeerDataQueue_ c)
       else things (toPeerDataQueue_ c') = things (toPeerDataQueue_ c) ++ map BufferData chunks
            /\ wire c' = wire c.
Proof.
  intros Hstr Hbuf Hwf.
  set (size := Z.to_nat CHUNK_SIZE).
  assert (0 < size)%nat as Hsize by (subst size; unfold CHUNK_SIZE; lia).
  destruct (forEach_handle_returns (chunk b size) [] c) as (ps & c' & Heq & Hlen & Hf & Ho).
  exists (chunk b size), ps, c'. repeat split.
  - unfold send, send_byteLength, chunkBufferOntoQueue_.
    rewrite Hstr, Hbuf. cbn [typeof_object instanceof_ArrayBuffer orb andb negb truthy].
    destruct (str data); try discriminate Hstr; cbn [property_byteLength exceeds];
      (rewrite gtb_false
        by (unfold wf_ArrayBuffer, MAX_SAFE_INTEGER, MAX_MESSAGE_SIZE in *; lia));
      fold size; rewrite Heq; reflexivity.
  - rewrite <- CHUNK_SIZE_nat. fold size. now apply chunk_count.
  - rewrite <- CHUNK_SIZE_nat. fold size.
    eapply Forall_impl; [apply chunk_sizes|].
    intros ch Hch. unfold byteLength. cbn beta in *. lia.
  - now apply chunk_concat.
  - exact Hlen.
  - destruct (isHandling (toPeerDataQueue_ c)).
    + rewrite <- calls_of_BufferData. exact Ho.
    + destruct Ho as (Hq & Hw & _). auto.
Qed.

(** *** Rejections *)

Lemma send_too_big (data : Data) (n : Z) c :
  typeof_string (str data)
  || (typeof_object (buffer data) && instanceof_ArrayBuffer (buffer data)) = true ->
  send_byteLength data = Some n ->
  n > MAX_MESSAGE_SIZE ->
  send data c = Normal (Some (PromiseReject DataTooBig)) c.
Proof.
  intros Hok Hn Hgt. unfold send. rewrite Hok, Hn. cbn [negb exceeds].
  now rewrite gtb_true by lia.
Qed.

(** C5.  An input that is neither a text payload ([str] a string) nor a
    binary payload ([buffer] an [ArrayBuffer]), and a payload whose
    computed byte length exceeds MAX_MESSAGE_SIZE = 2^53, make [send]
    return a rejected promise and leave the channel as it was: nothing
    is put on the outbound queue. *)
Theorem send_rejects (data : Data) c :
  (typeof_string (str data) = false /\ instanceof_ArrayBuffer (buffer data) = false)
  \/ (exists n, send_byteLength data = Some n /\ n > MAX_MESSAGE_SIZE) ->
  exists e,
    send data c = Normal (Some (PromiseReject e)) c
    /\ MAX_MESSAGE_SIZE = 2 ^ 53
    /\ length (queue_ (toPeerDataQueue_ (after (send data c))))
       = length (queue_ (toPeerDataQueue_ c)).
Proof.
  intros H. unfold send.
  destruct (negb _) eqn:Hmal.
  - exists (MalformedData data). auto.
  - destruct H as [[Hs Hb]|(n & Hn & Hgt)].
    + rewrite Hs, Hb, andb_false_r in Hmal. discriminate.
    + rewrite Hn. cbn [exceeds].
      rewrite gtb_true by lia.
      exists DataTooBig. auto.
Qed.

(** *** Text *)

(** A text under the ceiling goes to the outbound queue whole. *)
Lemma send_text_offered (data : Data) (s : jsstring) c :
  str data = JsString s ->
  string_length s * 2 <= MAX_MESSAGE_SIZE ->
  exists p c',
    send data c = Normal (Some p) c'
    /\ if isHandling (toPeerDataQueue_ c)
       then wire c' = wire c ++ [CallSend s]
            /\ queue_ (toPeerDataQueue_ c') = queue_ (toPeerDataQueue_ c)
       else things (toPeerDataQueue_ c') = things (toPeerDataQueue_ c) ++ [StringData s]
            /\ wire c' = wire c.
Proof.
  intros Hstr Hle. unfold send, send_byteLength, chunkStringOntoQueue_. rewrite Hstr.
  cbn [typeof_string orb negb exceeds].
  rewrite gtb_false by lia.
  destruct (toPeerDataQueue_handle_returns (StringData s) c) as (p & c' & -> & Hf & Ho).
  exists p, c'. split; [reflexivity|].
  destruct (isHandling (toPeerDataQueue_ c)).
  - cbn in Ho. exact Ho.
  - destruct Ho as (Hq & Hw & _). auto.
Qed.

(** C8.  The byte length [send] computes for a text payload is its number
    of code units times 2, and the text is handed to the outbound queue
    as one unit, whatever its length: one entry when consumption is
    suspended, one call of the transport's [send] when it is active.  The
    texts are those that can be built: a byte length within
    MAX_MESSAGE_SIZE = 2^53 means at most 2^52 code units, which is more
    than a string can hold in memory. *)
Theorem send_text_single_unit (data : Data) (s : jsstring) c :
  str data = JsString s ->
  string_length s * 2 <= MAX_MESSAGE_SIZE ->
  send_byteLength data = Some (string_length s * 2)
  /\ exists p c',
      send data c = Normal (Some p) c'
      /\ if isHandling (toPeerDataQueue_ c)
         then wire c' = wire c ++ [CallSend s]
              /\ queue_ (toPeerDataQueue_ c') = queue_ (toPeerDataQueue_ c)
         else things (toPeerDataQueue_ c') = things (toPeerDataQueue_ c) ++ [StringData s]
              /\ wire c' = wire c.
Proof.
  intros Hstr Hle. split.
  - unfold send_byteLength. now rewrite Hstr.
  - now apply send_text_offered.
Qed.

(** C10.  When [str] is a string and [buffer] is an [ArrayBuffer] as
    well, [send] treats the payload as the text alone: the byte length
    comes from [str], and the whole call is the call on [{str: s}]; under
    the ceiling the text is handed over unchunked, as [{str: s}], and the
    buffer is never looked at.  The drain step gives the text the same
    precedence: it calls the transport's [send] with the text and does not
    call [sendBuffer]. *)
Theorem text_takes_precedence (s : jsstring) (b : ArrayBuffer) c :
  let data := {| str := JsString s; buffer := JsArrayBuffer b |} in
  send_byteLength data = Some (string_length s * 2)
  /\ send data c = send (StringData s) c
  /\ (string_length s * 2 <= MAX_MESSAGE_SIZE ->
      exists p c',
        send data c = Normal (Some p) c'
        /\ if isHandling (toPeerDataQueue_ c)
           then wire c' = wire c ++ [CallSend s]
                /\ queue_ (toPeerDataQueue_ c') = queue_ (toPeerDataQueue_ c)
           else things (toPeerDataQueue_ c') = things (toPeerDataQueue_ c) ++ [StringData s]
                /\ wire c' = wire c)
  /\ handleSendDataToPeer_ data c = handleSendDataToPeer_ (StringData s) c
  /\ exists p c',
      handleSendDataToPeer_ data c = Normal p c'
      /\ wire c' = wire c ++ [CallSend s].
Proof.
  intros data. split; [reflexivity|]. split; [reflexivity|]. split.
  - intros Hle. now apply send_text_offered.
  - split; [reflexivity|].
    destruct (handleSendDataToPeer__returns data c) as (p & c' & Heq & _ & _ & _ & _ & Hw).
    exists p, c'. split; assumption.
Qed.

(** *** The drain step and a throwing transport *)

Lemma handleSendDataToPeer__throwing (data : Data) c (e : Exception) :
  transport_throws data c e ->
  handleSendDataToPeer_ data c
  = Normal (PromiseReject (ErrorInSend e))
      (set_log (log c ++ [DebugErrorInSend e])
         (set_wire (wire c ++ calls_of data) c)).
Proof.
  unfold transport_throws, handleSendDataToPeer_, calls_of,
    rtcDataChannel_send, rtcDataChannel_sendBuffer.
  destruct data as [sv bv]; cbn [str buffer].
  destruct sv; try (intros [-> Hthrow]); try intros Hthrow;
    destruct c; cbn in *; rewrite Hthrow; reflexivity.
Qed.

Lemma settle_other (id id' : nat) (p : Promise) c :
  id <> id' ->
  settled (settle id p c) !! id' = settled c !! id'.
Proof.
  intros Hne. unfold settle.
  destruct (settlement_of p); destruct c; cbn;
    rewrite ?lookup_insert_ne by exact Hne; reflexivity.
Qed.

(** What the drain loop does not reach, it does not settle. *)
Lemma processQueue__keeps (pending : list PendingPromiseHandler) c (id : nat) :
  ~ In id (map completion pending) ->
  settled (after (processQueue_ pending c)) !! id = settled c !! id.
Proof.
  revert c. induction pending as [|entry rest IH]; intros c Hid; cbn [processQueue_].
  - reflexivity.
  - destruct (isHandling (toPeerDataQueue_ c)); [|reflexivity].
    set (c1 := set_toPeerDataQueue_ _ c).
    destruct (handleSendDataToPeer__returns (thing entry) c1)
      as (p & c2 & -> & _ & _ & _ & Hs & _).
    cbn [bind]. cbn [map In] in Hid.
    rewrite IH by tauto.
    rewrite settle_other by tauto.
    rewrite Hs. subst c1. now destruct c.
Qed.

(** The drain loop returns, whatever is queued and whatever the
    transport does. *)
Lemma processQueue__total (pending : list PendingPromiseHandler) c :
  exists c', processQueue_ pending c = Normal tt c'.
Proof.
  destruct (isHandling (toPeerDataQueue_ c)) eqn:Hh.
  - destruct (processQueue__returns pending c Hh) as (c' & Heq & _). eauto.
  - destruct pending; cbn [processQueue_]; rewrite ?Hh; eauto.
Qed.

(** C7.  When the transport's send primitive throws while a chunk is
    being handed to it, the exception is caught and the chunk's promise
    is rejected with the delivery error: the handler returns normally
    with a promise rejected with that error; this is the promise that
    [handle] returns for a chunk that arrives while consumption is active;
    and for a chunk that had been queued, the drain loop returns normally
    and has rejected the promise that [handle] had returned for it, which
    is a different promise for every entry.  Whatever the transport does,
    neither the handler nor the drain loop throws. *)
Theorem handleSendDataToPeer__catches (entry : PendingPromiseHandler)
    (rest : list PendingPromiseHandler) c (e : Exception) :
  transport_throws (thing entry) c e ->
  (exists c', handleSendDataToPeer_ (thing entry) c
              = Normal (PromiseReject (ErrorInSend e)) c'
              /\ toPeerDataQueue_ c' = toPeerDataQueue_ c
              /\ bufferedAmount_requested c' = bufferedAmount_requested c)
  /\ (isHandling (toPeerDataQueue_ c) = true ->
      exists c', toPeerDataQueue_handle (thing entry) c
                 = Normal (PromiseReject (ErrorInSend e)) c')
  /\ (isHandling (toPeerDataQueue_ c) = true ->
      ~ In (completion entry) (map completion rest) ->
      exists c', processQueue_ (entry :: rest) c = Normal tt c'
                 /\ settled c' !! completion entry = Some (Rejected (ErrorInSend e))
                 /\ status (settled c') (PromiseDeferred (completion entry)) = IsRejected)
  /\ (forall data' c0, exists p c', handleSendDataToPeer_ data' c0 = Normal p c')
  /\ (forall pending c0, exists c', processQueue_ pending c0 = Normal tt c').
Proof.
  intros Hthrow.
  assert (exists c', handleSendDataToPeer_ (thing entry) c
                     = Normal (PromiseReject (ErrorInSend e)) c'
                     /\ toPeerDataQueue_ c' = toPeerDataQueue_ c
                     /\ bufferedAmount_requested c' = bufferedAmount_requested c)
    as Hcatch.
  { rewrite (handleSendDataToPeer__throwing _ _ _ Hthrow).
    eexists. split; [reflexivity|]. now destruct c. }
  split; [exact Hcatch|]. split; [|split; [|split]].
  - intros Hh. unfold toPeerDataQueue_handle. rewrite Hh.
    destruct Hcatch as (c' & Heq & _). eauto.
  - intros Hh Hid.
    destruct (processQueue__total (entry :: rest) c) as (c' & Heq).
    exists c'. split; [exact Heq|].
    assert (settled c' !! completion entry = Some (Rejected (ErrorInSend e))) as Hs.
    { change c' with (after (Normal (A := unit) tt c')). rewrite <- Heq.
      cbn [processQueue_]. rewrite Hh.
      rewrite (handleSendDataToPeer__throwing (thing entry) _ e)
        by (unfold transport_throws in *; now destruct c).
      cbn [bind]. rewrite processQueue__keeps by exact Hid.
      destruct c; cbn. apply lookup_insert_eq. }
    split; [exact Hs|]. cbn [status]. now rewrite Hs.
  - intros data' c0.
    destruct (handleSendDataToPeer__returns data' c0) as (p & c' & Heq & _).
    eauto.
  - intros pending c0. apply processQueue__total.
Qed.

(** *** The congestion controller *)

(** C2.  When the answer to a request for the transport's buffered
    amount arrives: if bufferedAmount + CHUNK_SIZE exceeds
    PC_QUEUE_LIMIT (250 KiB), the outbound queue is left without handler,
    nothing is handed to the transport, and a timer of 20 ms is armed
    whose firing asks for the buffered amount again; if it does not,
    consumption is active when the callback returns, and what had
    accumulated has been handed to the transport in queue order. *)
Theorem congestion_sample (n : Z) c :
  (0 < bufferedAmount_requested c)%nat ->
  let c' := step c (BufferedAmount n) in
  PC_QUEUE_LIMIT = 250 * 1024
  /\ (n + CHUNK_SIZE > PC_QUEUE_LIMIT ->
      isHandling (toPeerDataQueue_ c') = false
      /\ queue_ (toPeerDataQueue_ c') = queue_ (toPeerDataQueue_ c)
      /\ wire c' = wire c
      /\ timeouts c' = timeouts c ++ [20]
      /\ bufferedAmount_requested (step c' TimerFired) = bufferedAmount_requested c)
  /\ (n + CHUNK_SIZE <= PC_QUEUE_LIMIT ->
      isHandling (toPeerDataQueue_ c') = true
      /\ timeouts c' = timeouts c
      /\ (isHandling (toPeerDataQueue_ c) = false ->
          queue_ (toPeerDataQueue_ c') = []
          /\ wire c' = wire c ++ flat_map calls_of (things (toPeerDataQueue_ c)))).
Proof.
  intros Hreq c'. subst c'. cbn [step].
  destruct (bufferedAmount_requested c) as [|k] eqn:Hk; [lia|].
  destruct (onBufferedAmount_returns n (set_bufferedAmount_requested k c))
    as (c' & -> & _ & _ & Hcase).
  cbn [after]. split; [reflexivity|]. split; intros Hn.
  - rewrite gtb_true in Hcase by lia.
    destruct Hcase as (Hh & Ht & Hq & Hw & Hr).
    repeat split; try (rewrite ?Hh, ?Ht, ?Hq, ?Hw; now destruct c).
    cbn [step]. rewrite Ht.
    destruct (timeouts (set_bufferedAmount_requested k c) ++ [20]) eqn:Happ.
    + now destruct (timeouts (set_bufferedAmount_requested k c)).
    + unfold conjestionControlSendHandler.
      transitivity (S (bufferedAmount_requested c')); [now destruct c'|].
      rewrite Hr. now destruct c.
  - rewrite gtb_false in Hcase by lia.
    destruct Hcase as (Hh & Ht & Hcase).
    split; [exact Hh|]. split; [rewrite Ht; now destruct c|].
    intros Hs.
    replace (isHandling (toPeerDataQueue_ (set_bufferedAmount_requested k c)))
      with false in Hcase by (now destruct c).
    destruct Hcase as (Hq & Hw). rewrite Hq, Hw. split; [reflexivity|].
    now destruct c.
Qed.

(** The poll goes on for as long as consumption is suspended: an open
    channel whose outbound queue has no handler has a timer armed or a
    request for the buffered amount under way. *)
Lemma suspended_is_polling c :
  reachable c ->
  onceOpened c = Settled Fulfilled ->
  isHandling (toPeerDataQueue_ c) = false ->
  timeouts c <> [] \/ (0 < bufferedAmount_requested c)%nat.
Proof.
  induction 1 as [rtc|c ev Hc IH]; [discriminate|].
  destruct ev as [state| | |m| |n| |d| |r]; cbn [step].
  - destruct (readyState_requested c); [|exact IH].
    unfold onReadyState. destruct (String.eqb state "open").
    + destruct (fulfillOpened_returns (set_readyState_requested false c))
        as (c' & -> & _ & _ & _ & Hcase).
      cbn [after]. destruct (onceOpened (set_readyState_requested false c)) eqn:Ho.
      * destruct Hcase as (Hh & _). congruence.
      * subst c'. destruct c; exact IH.
    + destruct (String.eqb state "connecting"); destruct c; exact IH.
  - destruct (onopen_listener c); [|exact IH].
    destruct (fulfillOpened_returns c) as (c' & -> & _ & _ & _ & Hcase).
    cbn [after]. destruct (onceOpened c) eqn:Ho.
    + destruct Hcase as (Hh & _). congruence.
    + subst c'. rewrite Ho. exact IH.
  - intros Ho Hh.
    assert (onceOpened c = Settled Fulfilled) as Ho'.
    { pose proof (fulfillClosed_lifecycle c) as Hl.
      apply (f_equal l_onceOpened) in Hl. cbn in Hl. rewrite Ho in Hl.
      unfold lifecycle_close in Hl. cbn in Hl.
      destruct (onceClosed c); cbn in Hl; [|congruence].
      destruct (opennedSuccessfully_ c) as [[|]|]; destruct (onceOpened c);
        congruence. }
    unfold fulfillClosed, rejectOpened_, not_opennedSuccessfully_ in *.
    destruct c as [? ? o cl fl ? ? ? ? ? ? ? ? ?]; cbn in *.
    destruct cl; cbn in *; [|auto]. subst o.
    destruct fl as [[|]|]; cbn in *; auto.
  - destruct (onDataFromPeer__frame m c) as (q & l & ->). destruct c; exact IH.
  - destruct c; exact IH.
  - assert (bufferedAmount_requested c = 0%nat
            \/ exists k, bufferedAmount_requested c = S k) as [Hk|[k Hk]]
      by (destruct (bufferedAmount_requested c); eauto);
      rewrite Hk; [exact IH|].
    destruct (onBufferedAmount_returns n (set_bufferedAmount_requested k c))
      as (c' & -> & _ & _ & Hcase).
    cbn [after]. intros _ Hh.
    destruct (n + CHUNK_SIZE >? PC_QUEUE_LIMIT).
    + destruct Hcase as (_ & Ht & _). left. rewrite Ht.
      now destruct (timeouts (set_bufferedAmount_requested k c)).
    + destruct Hcase as (Hh' & _). congruence.
  - assert (timeouts c = [] \/ exists t rest, timeouts c = t :: rest)
      as [Ht|(t & rest & Ht)] by (destruct (timeouts c); eauto);
      rewrite Ht; [exact IH|].
    intros _ _. right. unfold conjestionControlSendHandler. destruct c; cbn. lia.
  - destruct (send_returns d c) as (res & c' & ds & -> & [Hf Ho]).
    cbn [after]. intros Hop Hh.
    rewrite (isHandling_handler_ _ _ (frame_handler_ _ _ Hf)) in Hh.
    rewrite Hh in Ho. destruct Ho as (_ & _ & Hr).
    rewrite (frame_timeouts _ _ Hf), Hr. apply IH; [|assumption].
    pose proof (frame_lifecycle _ _ Hf) as Hl.
    apply (f_equal l_onceOpened) in Hl. cbn in Hl. congruence.
  - destruct c; exact IH.
  - destruct c; exact IH.
Qed.

(** *** Open, close and the outbound queue *)

Lemma fulfillClosed_outbound c :
  toPeerDataQueue_ (fulfillClosed c) = toPeerDataQueue_ c
  /\ wire (fulfillClosed c) = wire c
  /\ timeouts (fulfillClosed c) = timeouts c
  /\ bufferedAmount_requested (fulfillClosed c) = bufferedAmount_requested c.
Proof.
  unfold fulfillClosed, rejectOpened_, not_opennedSuccessfully_.
  destruct c as [? ? o cl fl ? ? ? ? ? ? ? ? ?]; cbn.
  destruct cl; cbn; auto. destruct fl as [[|]|]; destruct o; cbn; auto.
Qed.

(** C3, as the code has it.  The close event does nothing to the outbound
    queue: it keeps its handler and its entries, and the timers and the
    requests of the congestion controller stay under way.  A channel
    that failed to open never hands anything to the transport, before or
    after: its outbound queue never gets a handler.  A channel that
    closed after it had opened keeps consuming: with a request for the
    buffered amount under way, an answer under the ceiling installs the
    handler and hands the queued chunks to the transport. *)
Theorem close_and_consumption c :
  reachable c ->
  (toPeerDataQueue_ (step c OnClose) = toPeerDataQueue_ c
   /\ wire (step c OnClose) = wire c
   /\ timeouts (step c OnClose) = timeouts c
   /\ bufferedAmount_requested (step c OnClose) = bufferedAmount_requested c)
  /\ (channel_state c = FailedToOpen ->
      forall evs, isHandling (toPeerDataQueue_ (run c evs)) = false
                  /\ wire (run c evs) = [])
  /\ (channel_state c = Closed ->
      isHandling (toPeerDataQueue_ c) = false ->
      (0 < bufferedAmount_requested c)%nat ->
      forall n, n + CHUNK_SIZE <= PC_QUEUE_LIMIT ->
        isHandling (toPeerDataQueue_ (step c (BufferedAmount n))) = true
        /\ wire (step c (BufferedAmount n))
           = wire c ++ flat_map calls_of (things (toPeerDataQueue_ c))).
Proof.
  intros Hc. split; [apply fulfillClosed_outbound|]. split.
  - intros Hst evs.
    assert (exists e, onceOpened c = Settled (Rejected e)) as [e He].
    { unfold channel_state in Hst.
      destruct (onceOpened c) as [|[|e]]; try destruct (onceClosed c);
        try discriminate; eauto. }
    destruct (reachable_idle (run c evs)) as (Hh & _ & _ & Hw); auto.
    + now apply reachable_run.
    + rewrite (run_onceOpened_settled c evs _ He). discriminate.
  - intros _ Hh Hreq n Hn. cbn [step].
    destruct (bufferedAmount_requested c) as [|k] eqn:Hk; [lia|].
    destruct (onBufferedAmount_returns n (set_bufferedAmount_requested k c))
      as (c' & -> & _ & _ & Hcase).
    cbn [after]. rewrite gtb_false in Hcase by lia.
    destruct Hcase as (Hh' & _ & Hcase).
    replace (isHandling (toPeerDataQueue_ (set_bufferedAmount_requested k c)))
      with false in Hcase by (now destruct c).
    destruct Hcase as (_ & Hw). rewrite Hw. split; [assumption|]. now destruct c.
Qed.

(** C4.  When the transport fires its close event on a channel that is
    still Connecting, [onceOpened] is rejected and [onceClosed] is
    fulfilled, and both stay so whatever happens next: [onceOpened] is
    never fulfilled. *)
Theorem close_while_connecting c (evs : list Event) :
  reachable c ->
  channel_state c = Connecting ->
  let c' := run (step c OnClose) evs in
  onceOpened c' = Settled (Rejected FailedToOpenError)
  /\ onceClosed c' = Settled Fulfilled
  /\ channel_state c' = FailedToOpen.
Proof.
  intros Hc Hst c'.
  assert (onceOpened c = Pending) as Ho.
  { unfold channel_state in Hst.
    destruct (onceOpened c) as [|[|e]]; try destruct (onceClosed c);
      try discriminate; reflexivity. }
  destruct (reachable_lifecycle_ok c Hc) as [Hfl Hcl]. cbn in Hfl, Hcl.
  specialize (Hcl Ho).
  pose proof (step_lifecycle c OnClose) as Hl. cbn [lifecycle_step] in Hl.
  unfold lifecycle_close in Hl. cbn in Hl. rewrite Hcl, Ho in Hl.
  assert (onceOpened (step c OnClose) = Settled (Rejected FailedToOpenError)) as Ho1.
  { apply (f_equal l_onceOpened) in Hl. cbn in Hl. cbn [step]. rewrite Hl.
    destruct (opennedSuccessfully_ c) as [[|]|]; try reflexivity.
    specialize (Hfl eq_refl). congruence. }
  assert (onceClosed (step c OnClose) = Settled Fulfilled) as Hc1.
  { apply (f_equal l_onceClosed) in Hl. exact Hl. }
  assert (onceOpened c' = Settled (Rejected FailedToOpenError)) as Ho2
    by (now apply run_onceOpened_settled).
  assert (onceClosed c' = Settled Fulfilled) as Hc2
    by (now apply run_onceClosed_settled).
  unfold channel_state. rewrite Ho2, Hc2. auto.
Qed.

(** C6.  A newly constructed channel has no handler on its outbound
    queue, and at every later point at which the queue has a handler,
    [onceOpened] has been fulfilled. *)
Theorem handler_only_after_opened (rtc : RTC) (evs : list Event) :
  isHandling (toPeerDataQueue_ (constructor rtc)) = false
  /\ (isHandling (toPeerDataQueue_ (run (constructor rtc) evs)) = true ->
      onceOpened (run (constructor rtc) evs) = Settled Fulfilled).
Proof.
  split; [reflexivity|]. intros Hh.
  destruct (onceOpened (run (constructor rtc) evs)) as [|[|e]] eqn:Ho;
    [|reflexivity|].
  all: destruct (reachable_idle (run (constructor rtc) evs)) as (Hh' & _);
    [apply reachable_run; constructor|rewrite Ho; discriminate|congruence].
Qed.

(** *** Inbound messages *)

Lemma set_inbound_twice (q q' : list Data) (l l' : list LogEntry) c :
  set_dataFromPeerQueue q (set_log l (set_dataFromPeerQueue q' (set_log l' c)))
  = set_dataFromPeerQueue q (set_log l c).
Proof. now destruct c. Qed.

(** One message: what the listener does with it, by its shape. *)
Lemma onDataFromPeer__one (m : Message) c :
  unloggable m = false ->
  onDataFromPeer_ m c = Normal tt (step c (OnMessage m))
  /\ dataFromPeerQueue (step c (OnMessage m))
     = dataFromPeerQueue c ++ option_list (classify m)
  /\ log (step c (OnMessage m))
     = log c ++ (if unrecognized m then [ErrorUnexpectedData m] else [])
  /\ set_dataFromPeerQueue (dataFromPeerQueue c) (set_log (log c) (step c (OnMessage m)))
     = c.
Proof.
  unfold unloggable, unrecognized, classify. cbn [step].
  unfold onDataFromPeer_, dataFromPeerQueue_handle, JSON_stringify.
  destruct (text m) eqn:Ht; try destruct (message_buffer m) eqn:Hb;
    cbn [andb negb]; intros Hlog;
    try (apply negb_false_iff in Hlog; rewrite Hlog);
    destruct c; cbn; rewrite ?app_nil_r; auto.
Qed.

(** C9, as the code has it.  Of the messages the transport delivers,
    those with a string [text] reach the inbound queue as text payloads,
    those without it but with an [ArrayBuffer] as binary payloads, in the
    order they arrived.  Every other message, when [JSON.stringify] can
    write it out, is dropped with one entry in the error log.  On each of
    these messages the listener returns and does not throw, and nothing
    but the inbound queue and the log changes. *)
Theorem onDataFromPeer__dispatch (ms : list Message) c :
  Forall (fun m => unloggable m = false) ms ->
  let c' := run c (map OnMessage ms) in
  dataFromPeerQueue c' = dataFromPeerQueue c ++ omap classify ms
  /\ log c' = log c ++ map ErrorUnexpectedData (List.filter unrecognized ms)
  /\ set_dataFromPeerQueue (dataFromPeerQueue c) (set_log (log c) c') = c
  /\ Forall (fun m => forall c0, onDataFromPeer_ m c0 = Normal tt (step c0 (OnMessage m))) ms.
Proof.
  intros Hms. revert c.
  induction Hms as [|m ms Hm Hms IH]; intros c; cbn [map run fold_left].
  - cbn. rewrite !app_nil_r. repeat split; [now destruct c|constructor].
  - specialize (IH (step c (OnMessage m))). cbn zeta in IH.
    fold (run (step c (OnMessage m)) (map OnMessage ms)).
    destruct IH as (Hq & Hl & Hrest & Hall).
    destruct (onDataFromPeer__one m c Hm) as (_ & Hq1 & Hl1 & Hrest1).
    set (c1 := step c (OnMessage m)) in *.
    set (c' := run c1 (map OnMessage ms)) in *.
    assert (Forall (fun m0 => forall c0,
                      onDataFromPeer_ m0 c0 = Normal tt (step c0 (OnMessage m0)))
                   (m :: ms)) as Hall'.
    { constructor; [|exact Hall]. intros c0. now apply onDataFromPeer__one. }
    rewrite Hq, Hl, Hq1, Hl1. cbn [omap list_omap List.filter].
    unfold unrecognized in *.
    destruct (classify m) eqn:Hcl; cbn [option_list map];
      rewrite <- !app_assoc; repeat split; auto.
    all: rewrite <- (set_inbound_twice _ (dataFromPeerQueue c1) _ (log c1) c');
      rewrite Hrest; exact Hrest1.
Qed.

End Properties.

(** ** The properties at work on [SimpleTransport] *)

Lemma long_text_length : string_length Simple.long_text = 2 ^ 52 + 1.
Proof.
  unfold string_length, Simple.long_text.
  rewrite repeat_length. apply Z2Nat.id. lia.
Qed.

(** Three bytes on a new channel: one chunk, waiting in the queue. *)
Lemma send_binary_chunks_witness :
  wf_ArrayBuffer [1; 2; 3]
  /\ exists chunks promises c',
      Simple.send (BufferData [1; 2; 3]) Simple.fresh
      = Normal (Some (PromiseAll promises)) c'
      /\ Z.of_nat (length chunks) = ceil_div 3 CHUNK_SIZE
      /\ concat chunks = [1; 2; 3]
      /\ things (toPeerDataQueue_ c') = map BufferData chunks.
Proof.
  assert (wf_ArrayBuffer [1; 2; 3]) as Hwf by (vm_compute; discriminate).
  split; [exact Hwf|].
  destruct (send_binary_chunks SimpleTransport.send SimpleTransport.sendBuffer
              (BufferData [1; 2; 3]) [1; 2; 3] Simple.fresh eq_refl eq_refl Hwf)
    as (chunks & promises & c' & Hsend & _ & Hcount & _ & Hconcat & _ & Hq & _).
  exists chunks, promises, c'. auto.
Defined.

Lemma long_text_byteLength :
  send_byteLength (StringData Simple.long_text) = Some (2 ^ 53 + 2).
Proof.
  unfold send_byteLength. cbn [str StringData].
  now rewrite long_text_length.
Qed.

(** Scenario C of the spec, a payload with neither field, and a text
    over the ceiling. *)
Lemma send_rejects_witness :
  (exists e,
     Simple.send {| str := JsUndefined; buffer := JsUndefined |} Simple.fresh
     = Normal (Some (PromiseReject e)) Simple.fresh)
  /\ (exists e,
        Simple.send (StringData Simple.long_text) Simple.fresh
        = Normal (Some (PromiseReject e)) Simple.fresh).
Proof.
  split.
  - destruct (send_rejects SimpleTransport.send SimpleTransport.sendBuffer
                {| str := JsUndefined; buffer := JsUndefined |} Simple.fresh
                (or_introl (conj eq_refl eq_refl)))
      as (e & Hsend & _).
    exists e. exact Hsend.
  - destruct (send_rejects SimpleTransport.send SimpleTransport.sendBuffer
                (StringData Simple.long_text) Simple.fresh
                (or_intror (ex_intro _ (2 ^ 53 + 2) (conj long_text_byteLength eq_refl))))
      as (e & Hsend & _).
    exists e. exact Hsend.
Defined.

(** The text "hi" on a new channel waits in the queue as one entry. *)
Lemma send_text_single_unit_witness :
  string_length Simple.hi * 2 <= MAX_MESSAGE_SIZE
  /\ exists p c',
      Simple.send (StringData Simple.hi) Simple.fresh = Normal (Some p) c'
      /\ things (toPeerDataQueue_ c') = [StringData Simple.hi].
Proof.
  assert (string_length Simple.hi * 2 <= MAX_MESSAGE_SIZE) as Hle
    by (vm_compute; discriminate).
  split; [exact Hle|].
  destruct (send_text_single_unit SimpleTransport.send SimpleTransport.sendBuffer
              (StringData Simple.hi) Simple.hi Simple.fresh eq_refl Hle)
    as (_ & p & c' & Hsend & Hq & _).
  exists p, c'. auto.
Defined.

(** "hi" together with three bytes: the text alone waits in the queue. *)
Lemma text_takes_precedence_witness :
  string_length Simple.hi * 2 <= MAX_MESSAGE_SIZE
  /\ exists p c',
      Simple.send {| str := JsString Simple.hi; buffer := JsArrayBuffer [1; 2; 3] |}
        Simple.fresh
      = Normal (Some p) c'
      /\ things (toPeerDataQueue_ c') = [StringData Simple.hi].
Proof.
  assert (string_length Simple.hi * 2 <= MAX_MESSAGE_SIZE) as Hle
    by (vm_compute; discriminate).
  split; [exact Hle|].
  destruct (text_takes_precedence SimpleTransport.send SimpleTransport.sendBuffer
              Simple.hi [1; 2; 3] Simple.fresh)
    as (_ & _ & Hunder & _).
  destruct (Hunder Hle) as (p & c' & Hsend & Hq & _).
  exists p, c'. auto.
Defined.

(** The application closes an open channel: the transport throws
    [InvalidStateError] from then on, and a queued text's promise is
    rejected when the drain loop reaches it. *)
Lemma handleSendDataToPeer__catches_witness :
  let c := Simple.run Simple.fresh [ReadyState "open"; Close] in
  let entry := {| thing := StringData Simple.hi; completion := 0%nat |} in
  transport_throws SimpleTransport.send SimpleTransport.sendBuffer
    (thing entry) c InvalidStateError
  /\ isHandling (toPeerDataQueue_ c) = true
  /\ exists c',
      processQueue_ SimpleTransport.send SimpleTransport.sendBuffer [entry] c
      = Normal tt c'
      /\ status (settled c') (PromiseDeferred (completion entry)) = IsRejected.
Proof.
  cbv zeta. split; [reflexivity|]. split; [reflexivity|].
  destruct (handleSendDataToPeer__catches SimpleTransport.send SimpleTransport.sendBuffer
              {| thing := StringData Simple.hi; completion := 0%nat |} []
              (Simple.run Simple.fresh [ReadyState "open"; Close])
              InvalidStateError eq_refl)
    as (_ & _ & Hqueued & _).
  destruct (Hqueued eq_refl (fun H : False => H)) as (c' & Heq & _ & Hst).
  exists c'. split; assumption.
Defined.

(** A sample over the ceiling, then one under it. *)
Lemma congestion_sample_witness :
  let c := Simple.run Simple.fresh [ReadyState "open"; Send (StringData Simple.hi)] in
  let c' := Simple.step c (BufferedAmount 300000) in
  (0 < bufferedAmount_requested c)%nat
  /\ 300000 + CHUNK_SIZE > PC_QUEUE_LIMIT
  /\ isHandling (toPeerDataQueue_ c') = false
  /\ timeouts c' = [20].
Proof.
  cbv zeta.
  assert (0 < bufferedAmount_requested
                (Simple.run Simple.fresh [ReadyState "open"; Send (StringData Simple.hi)]))%nat
    as Hreq by (vm_compute; lia).
  assert (300000 + CHUNK_SIZE > PC_QUEUE_LIMIT) as Hn by reflexivity.
  destruct (congestion_sample SimpleTransport.send SimpleTransport.sendBuffer
              SimpleTransport.close 300000 _ Hreq)
    as (_ & Hover & _).
  destruct (Hover Hn) as (Hh & _ & _ & Ht & _).
  repeat split; assumption.
Defined.

(** C3 does not hold: on the channel of [closed_mid_send], which is
    Closed with the text "hi" still queued, the armed timer fires, the
    transport reports an empty buffer, and the queued text is handed to the
    transport's [send]. *)
Lemma queued_chunk_sent_after_close :
  let c := Simple.run Simple.fresh Simple.closed_mid_send in
  let c' := Simple.run c [TimerFired; BufferedAmount 0] in
  channel_state c = Closed
  /\ things (toPeerDataQueue_ c) = [StringData Simple.hi]
  /\ isHandling (toPeerDataQueue_ c) = false
  /\ isHandling (toPeerDataQueue_ c') = true
  /\ wire c' = wire c ++ [CallSend Simple.hi].
Proof. vm_compute. repeat split. Qed.

(** A channel that closed before it opened stays idle. *)
Lemma close_and_consumption_witness :
  let c := Simple.run Simple.fresh [ReadyState "connecting"; Send (StringData Simple.hi); OnClose] in
  channel_state c = FailedToOpen
  /\ isHandling (toPeerDataQueue_ (Simple.run c [OnOpen; TimerFired; BufferedAmount 0])) = false
  /\ wire (Simple.run c [OnOpen; TimerFired; BufferedAmount 0]) = [].
Proof.
  cbv zeta. split; [reflexivity|].
  refine (proj1 (proj2 (close_and_consumption SimpleTransport.send SimpleTransport.sendBuffer
                          SimpleTransport.close
                          (Simple.run Simple.fresh
                             [ReadyState "connecting"; Send (StringData Simple.hi); OnClose])
                          _)) eq_refl _).
  apply (reachable_run _ _ _ Simple.fresh). constructor.
Defined.

(** Scenario E of the spec. *)
Lemma close_while_connecting_witness :
  let c' := Simple.run (Simple.step Simple.fresh OnClose) [OnOpen; ReadyState "open"] in
  channel_state Simple.fresh = Connecting
  /\ onceOpened c' = Settled (Rejected FailedToOpenError)
  /\ onceClosed c' = Settled Fulfilled.
Proof.
  cbv zeta. split; [reflexivity|].
  destruct (close_while_connecting SimpleTransport.send SimpleTransport.sendBuffer
              SimpleTransport.close Simple.fresh [OnOpen; ReadyState "open"]
              (reachable_constructor _ _ _ _) eq_refl)
    as (Ho & Hc & _).
  split; assumption.
Defined.

(** Scenario A of the spec: the transport is open already. *)
Lemma handler_only_after_opened_witness :
  isHandling (toPeerDataQueue_ (Simple.run Simple.fresh [ReadyState "open"])) = true
  /\ onceOpened (Simple.run Simple.fresh [ReadyState "open"]) = Settled Fulfilled.
Proof.
  split; [reflexivity|].
  exact (proj2 (handler_only_after_opened SimpleTransport.send SimpleTransport.sendBuffer
                  SimpleTransport.close SimpleTransport.opened [ReadyState "open"])
               eq_refl).
Defined.

(** A text, a message with neither field and three bytes: two payloads
    and one entry in the log. *)
Lemma onDataFromPeer__dispatch_witness :
  Forall (fun m => unloggable m = false) Scenario.three_messages
  /\ dataFromPeerQueue (Simple.run Simple.fresh (map OnMessage Scenario.three_messages))
     = [StringData Simple.hi; BufferData [1; 2; 3]]
  /\ log (Simple.run Simple.fresh (map OnMessage Scenario.three_messages))
     = [ErrorUnexpectedData {| text := JsUndefined; message_buffer := JsUndefined |}].
Proof.
  assert (Forall (fun m => unloggable m = false) Scenario.three_messages) as Hms
    by (repeat constructor).
  split; [exact Hms|].
  destruct (onDataFromPeer__dispatch SimpleTransport.send SimpleTransport.sendBuffer
              SimpleTransport.close Scenario.three_messages Simple.fresh Hms)
    as (Hq & Hl & _).
  split; assumption.
Defined.

(** C9 does not hold of every message: on a message whose [text] is a
    cyclic object the listener throws the [TypeError] of
    [JSON.stringify], and nothing is written to the log. *)
Lemma cyclic_message_throws :
  classify Scenario.cyclic_message = None
  /\ onDataFromPeer_ Scenario.cyclic_message Simple.fresh = Throw TypeError Simple.fresh
  /\ log (Simple.step Simple.fresh (OnMessage Scenario.cyclic_message)) = [].
Proof. repeat split. Qed.

(** Scenario D of the spec, on three bytes and a text: consumption is
    suspended by a sample over the ceiling, the text waits, and the next
    sample under the ceiling delivers it; nothing is lost or repeated. *)
Example suspend_and_resume :
  wire (Simple.run Simple.fresh
          [ ReadyState "open"; Send (BufferData [1; 2; 3]); BufferedAmount 300000;
            Send (StringData Simple.hi); TimerFired; BufferedAmount 0 ])
  = [CallSendBuffer (JsArrayBuffer [1; 2; 3]); CallSend Simple.hi].
Proof. reflexivity. Qed.


(** * Further properties *)

Section Lifecycle.

Context {RTC : Type}.
Variable rtc_send : RTC -> jsstring -> Exception + RTC.
Variable rtc_sendBuffer : RTC -> JsValue -> Exception + RTC.
Variable rtc_close : RTC -> RTC.

Local Abbreviation step := (step rtc_send rtc_sendBuffer rtc_close).
Local Abbreviation run := (run rtc_send rtc_sendBuffer rtc_close).
Local Abbreviation reachable := (reachable rtc_send rtc_sendBuffer rtc_close).

Implicit Types (c : DataChannel (RTC := RTC)) (ev : Event (RTC := RTC))
  (evs : list (Event (RTC := RTC))) (l : Lifecycle).

Lemma channel_state_lifecycle c : channel_state c = lifecycle_state (lifecycle_of c).
Proof. reflexivity. Qed.

Lemma run_snoc c evs ev : run c (evs ++ [ev]) = step (run c evs) ev.
Proof. unfold run. now rewrite fold_left_app. Qed.

Lemma lifecycle_step_consistent l ev :
  lifecycle_consistent l -> lifecycle_consistent (lifecycle_step l ev).
Proof.
  destruct l as [o cl fl rq li]. unfold lifecycle_consistent; cbn.
  destruct ev; cbn; auto; unfold lifecycle_open, lifecycle_close; cbn.
  - destruct rq; [|auto]. destruct (String.eqb state "open").
    + destruct o as [|[|e]], cl as [|[|e']]; cbn; intuition congruence.
    + destruct (String.eqb state "connecting"); cbn; auto.
  - destruct li; [|auto]. destruct o as [|[|e]], cl as [|[|e']]; cbn; intuition congruence.
  - destruct o as [|[|e]], cl as [|[|e']]; cbn; try tauto;
      destruct fl as [[|]|]; cbn; intuition congruence.
Qed.

Lemma reachable_consistent c : reachable c -> lifecycle_consistent (lifecycle_of c).
Proof.
  induction 1 as [rtc|c ev Hc IH].
  - reflexivity.
  - rewrite step_lifecycle. now apply lifecycle_step_consistent.
Qed.

(** X1.  The channel state only moves from Connecting to Open or to
    FailedToOpen, and from Open to Closed; Closed and FailedToOpen are
    never left. *)
Theorem channel_state_moves c ev :
  reachable c ->
  transition (channel_state c) (channel_state (step c ev)).
Proof.
  intros Hc. pose proof (reachable_consistent c Hc) as Hok.
  rewrite !channel_state_lifecycle, step_lifecycle.
  destruct (lifecycle_of c) as [o cl fl rq li].
  unfold lifecycle_consistent, lifecycle_state, transition in *; cbn in *.
  destruct ev; cbn; auto; unfold lifecycle_open, lifecycle_close; cbn.
  - destruct rq; [|auto]. destruct (String.eqb state "open").
    + destruct o as [|[|e]], cl as [|[|e']]; cbn; tauto.
    + destruct (String.eqb state "connecting"); cbn; auto.
  - destruct li; [|auto]. destruct o as [|[|e]], cl as [|[|e']]; cbn; tauto.
  - destruct o as [|[|e]], cl as [|[|e']]; cbn; try tauto;
      destruct fl as [[|]|]; cbn; try tauto; discriminate.
Qed.

(** X2.  Only what the transport reports moves the channel: an error
    event, an inbound message, a sample of the buffered amount, a timer, a
    call of [send] and a call of [close] leave both promises, the flag and
    the listeners as they are; in particular an error does not fail the
    channel and [close] does not close it. *)
Theorem only_transport_reports_move c ev :
  match ev with
  | ReadyState _ | OnOpen | OnClose => True
  | _ => lifecycle_of (step c ev) = lifecycle_of c
         /\ channel_state (step c ev) = channel_state c
  end.
Proof.
  pose proof (step_lifecycle rtc_send rtc_sendBuffer rtc_close c ev) as Hl.
  destruct ev; try exact I; cbn [lifecycle_step] in Hl;
    (split; [exact Hl|]); now rewrite !channel_state_lifecycle, Hl.
Qed.

(** X6.  [toString] shows the channel state: the flag it prints is
    [undefined] while the channel is connecting, [true] while it is open,
    and [false] once it has closed or failed to open. *)
Theorem toString_shows_state (label_ : option string) c :
  reachable c ->
  toString label_ c
  = (render_label label_ ++ ": opennedSuccessfully_="
     ++ match channel_state c with
        | Connecting => "undefined"
        | Open => "true"
        | Closed | FailedToOpen => "false"
        end)%string.
Proof.
  intros Hc. pose proof (reachable_consistent c Hc) as Hok.
  unfold toString. do 2 f_equal.
  rewrite channel_state_lifecycle.
  change (opennedSuccessfully_ c) with (l_opennedSuccessfully_ (lifecycle_of c)).
  destruct (lifecycle_of c) as [o cl fl rq li].
  unfold lifecycle_consistent, lifecycle_state in *; cbn in *.
  destruct o as [|[|e]], cl as [|[|e']]; try tauto; try (now rewrite Hok).
  destruct Hok as [-> _]. reflexivity.
Qed.

(** X5.  When the transport fires its close event on an open channel,
    [onceOpened] stays fulfilled, [onceClosed] is fulfilled, the flag is
    cleared, and the channel is Closed for good. *)
Theorem close_while_open c evs :
  reachable c ->
  channel_state c = Open ->
  let c' := run (step c OnClose) evs in
  onceOpened c' = Settled Fulfilled
  /\ onceClosed c' = Settled Fulfilled
  /\ opennedSuccessfully_ c' = Some false
  /\ channel_state c' = Closed.
Proof.
  intros Hc Hst c'.
  assert (onceOpened c = Settled Fulfilled /\ onceClosed c = Pending) as [Ho Hcl].
  { unfold channel_state in Hst.
    destruct (onceOpened c) as [|[|e]], (onceClosed c); try discriminate; auto. }
  assert (onceOpened c' = Settled Fulfilled) as Ho'.
  { apply run_onceOpened_settled. now apply step_onceOpened_settled. }
  assert (onceClosed c' = Settled Fulfilled) as Hcl'.
  { apply run_onceClosed_settled.
    pose proof (step_lifecycle rtc_send rtc_sendBuffer rtc_close c OnClose) as Hl.
    apply (f_equal l_onceClosed) in Hl. cbn in Hl.
    unfold lifecycle_close in Hl. cbn in Hl. rewrite Hcl in Hl. exact Hl. }
  assert (reachable c') as Hc'.
  { apply reachable_run. now constructor. }
  pose proof (reachable_consistent c' Hc') as Hok.
  unfold lifecycle_consistent in Hok. cbn in Hok. rewrite Ho', Hcl' in Hok.
  unfold channel_state. rewrite Ho', Hcl'. auto.
Qed.

Lemma lifecycle_step_onceClosed l ev :
  l_onceClosed (lifecycle_step l ev)
  = if is_OnClose ev
    then match l_onceClosed l with Pending => Settled Fulfilled | s => s end
    else l_onceClosed l.
Proof.
  destruct l as [o cl fl rq li]. destruct ev; cbn; try reflexivity;
    unfold lifecycle_open, lifecycle_close; cbn.
  - destruct rq; [|reflexivity]. destruct (String.eqb state "open").
    + now destruct o.
    + now destruct (String.eqb state "connecting").
  - destruct li; [|reflexivity]. now destruct o.
  - now destruct cl.
Qed.

(** X4.  Where [onceClosed] comes from: it is fulfilled exactly when the
    transport has fired its close event, whether or not the channel ever
    opened, and it is pending otherwise, so it is never rejected; calling
    [close] does not settle it. *)
Theorem onceClosed_iff_close_event (rtc : RTC) evs :
  (onceClosed (run (constructor rtc) evs) = Settled Fulfilled
   <-> existsb is_OnClose evs = true)
  /\ (onceClosed (run (constructor rtc) evs) = Pending
      <-> existsb is_OnClose evs = false).
Proof.
  change (onceClosed (run (constructor rtc) evs))
    with (l_onceClosed (lifecycle_of (run (constructor rtc) evs))).
  rewrite run_lifecycle.
  assert (forall l,
            l_onceClosed (fold_left lifecycle_step evs l)
            = if existsb is_OnClose evs
              then match l_onceClosed l with Pending => Settled Fulfilled | s => s end
              else l_onceClosed l) as Hfold.
  { induction evs as [|ev evs IH]; intros l; [reflexivity|].
    cbn [fold_left existsb]. rewrite IH, lifecycle_step_onceClosed.
    destruct (is_OnClose ev); cbn [orb].
    - now destruct (existsb is_OnClose evs), (l_onceClosed l).
    - reflexivity. }
  rewrite Hfold. cbn.
  destruct (existsb is_OnClose evs); split; split; congruence.
Qed.

(** *** How the channel opens *)

(** Until [getReadyState()] has answered, no event fulfils [onceOpened],
    and only a close event changes it. *)
Lemma fold_unanswered evs l :
  forallb (fun ev => negb (is_ReadyState ev)) evs = true ->
  l_readyState_requested l = true ->
  l_onopen_listener l = false ->
  l_onceOpened l <> Settled Fulfilled ->
  let l' := fold_left lifecycle_step evs l in
  l_readyState_requested l' = true
  /\ l_onopen_listener l' = false
  /\ l_onceOpened l' <> Settled Fulfilled
  /\ (existsb is_OnClose evs = false -> l_onceOpened l' = l_onceOpened l).
Proof.
  revert l. induction evs as [|ev evs IH]; intros l Hevs Hrq Hli Ho; cbn zeta.
  - auto.
  - cbn [forallb] in Hevs. apply andb_prop in Hevs as [Hev Hevs].
    cbn [fold_left existsb].
    assert (l_readyState_requested (lifecycle_step l ev) = true
            /\ l_onopen_listener (lifecycle_step l ev) = false
            /\ l_onceOpened (lifecycle_step l ev) <> Settled Fulfilled
            /\ (is_OnClose ev = false ->
                l_onceOpened (lifecycle_step l ev) = l_onceOpened l))
      as (Hrq' & Hli' & Ho' & Hsame).
    { destruct l as [o cl fl rq li]; cbn in *. subst rq li.
      destruct ev; cbn in *; try discriminate; auto.
      unfold lifecycle_close; cbn.
      destruct cl; cbn; auto. repeat split; auto; try discriminate.
      destruct fl as [[|]|], o as [|[|e]]; congruence. }
    destruct (IH _ Hevs Hrq' Hli' Ho') as (H1 & H2 & H3 & H4).
    repeat split; auto.
    intros Hno. apply orb_false_elim in Hno as [Hev' Hno].
    rewrite (H4 Hno). auto.
Qed.

Lemma fold_deaf evs l :
  l_readyState_requested l = false ->
  l_onopen_listener l = false ->
  l_onceOpened l <> Settled Fulfilled ->
  l_onceOpened (fold_left lifecycle_step evs l) <> Settled Fulfilled.
Proof.
  revert l. induction evs as [|ev evs IH]; intros l Hrq Hli Ho; [assumption|].
  cbn [fold_left]. apply IH;
    destruct l as [o cl fl rq li]; cbn in *; subst rq li;
    destruct ev; cbn; auto; unfold lifecycle_close; cbn;
    destruct cl; cbn; auto;
    destruct fl as [[|]|], o as [|[|e]]; congruence.
Qed.

Lemma lifecycle_fold_opened evs l r :
  l_onceOpened l = Settled r ->
  l_onceOpened (fold_left lifecycle_step evs l) = Settled r.
Proof.
  revert l. induction evs as [|ev evs IH]; intros l H; [assumption|].
  cbn [fold_left]. apply IH.
  now apply lifecycle_step_onceOpened_settled.
Qed.

(** X3.  The channel opens through the answer to [getReadyState()] only.
    Until the answer has arrived [onceOpened] is not fulfilled, whatever
    events come, open events included; when the answer arrives, the
    channel is open only if the answer is ['open']; an answer ['open'] to
    a channel that has seen no close event fulfils [onceOpened]; and after
    an answer that is neither ['open'] nor ['connecting'] [onceOpened] is
    never fulfilled. *)
Theorem opens_through_readyState (rtc : RTC) evs1 (state : string) evs2 :
  forallb (fun ev => negb (is_ReadyState ev)) evs1 = true ->
  onceOpened (run (constructor rtc) evs1) <> Settled Fulfilled
  /\ (state <> "open"%string ->
      onceOpened (run (constructor rtc) (evs1 ++ [ReadyState state])) <> Settled Fulfilled)
  /\ (state = "open"%string -> existsb is_OnClose evs1 = false ->
      onceOpened (run (constructor rtc) (evs1 ++ ReadyState state :: evs2))
      = Settled Fulfilled)
  /\ (state <> "open"%string -> state <> "connecting"%string ->
      onceOpened (run (constructor rtc) (evs1 ++ ReadyState state :: evs2))
      <> Settled Fulfilled).
Proof.
  intros Hevs.
  assert (forall evs, onceOpened (run (constructor rtc) evs)
                      = l_onceOpened (fold_left lifecycle_step evs
                                        (lifecycle_of (constructor rtc)))) as Hrun.
  { intros evs. now rewrite <- (run_lifecycle rtc_send rtc_sendBuffer rtc_close). }
  rewrite !Hrun, !fold_left_app. cbn [fold_left].
  destruct (fold_unanswered evs1 (lifecycle_of (constructor rtc)) Hevs
              eq_refl eq_refl ltac:(discriminate)) as (Hrq & Hli & Ho & Hsame).
  set (l := fold_left lifecycle_step evs1 (lifecycle_of (constructor rtc))) in *.
  assert (forall st, st <> "open"%string -> String.eqb st "open" = false) as Hne
    by (intros st; apply String.eqb_neq).
  split; [exact Ho|]. split; [|split].
  - intros Hst. cbn [lifecycle_step]. rewrite Hrq, (Hne _ Hst).
    destruct (String.eqb state "connecting"); cbn; exact Ho.
  - intros -> Hno. specialize (Hsame Hno). cbn in Hsame.
    apply (lifecycle_fold_opened evs2).
    cbn [lifecycle_step]. rewrite Hrq. cbn. unfold lifecycle_open. cbn.
    now rewrite Hsame.
  - intros Hst Hst'. apply fold_deaf; cbn [lifecycle_step]; rewrite Hrq, (Hne _ Hst);
      rewrite (proj2 (String.eqb_neq _ _) Hst'); cbn; auto.
Qed.

End Lifecycle.


Section Outbound.

Context {RTC : Type}.
Variable rtc_send : RTC -> jsstring -> Exception + RTC.
Variable rtc_sendBuffer : RTC -> JsValue -> Exception + RTC.
Variable rtc_close : RTC -> RTC.

Local Abbreviation handleSendDataToPeer_ := (handleSendDataToPeer_ rtc_send rtc_sendBuffer).
Local Abbreviation setHandler := (setHandler rtc_send rtc_sendBuffer).
Local Abbreviation toPeerDataQueue_handle := (toPeerDataQueue_handle rtc_send rtc_sendBuffer).
Local Abbreviation forEach_handle := (forEach_handle rtc_send rtc_sendBuffer).
Local Abbreviation chunkBufferOntoQueue_ := (chunkBufferOntoQueue_ rtc_send rtc_sendBuffer).
Local Abbreviation chunkStringOntoQueue_ := (chunkStringOntoQueue_ rtc_send rtc_sendBuffer).
Local Abbreviation send := (send rtc_send rtc_sendBuffer).
Local Abbreviation onBufferedAmount := (onBufferedAmount rtc_send rtc_sendBuffer).
Local Abbreviation fulfillOpened := (fulfillOpened rtc_send rtc_sendBuffer).
Local Abbreviation onReadyState := (onReadyState rtc_send rtc_sendBuffer).
Local Abbreviation step := (step rtc_send rtc_sendBuffer rtc_close).
Local Abbreviation run := (run rtc_send rtc_sendBuffer rtc_close).
Local Abbreviation reachable := (reachable rtc_send rtc_sendBuffer rtc_close).

Implicit Types (c : DataChannel (RTC := RTC)) (d : Data) (ev : Event (RTC := RTC))
  (evs : list (Event (RTC := RTC))).

(** *** What [send] hands over *)

Lemma toPeerDataQueue_handle_suspended (x : Data) c :
  isHandling (toPeerDataQueue_ c) = false ->
  exists c',
    toPeerDataQueue_handle x c = Normal (PromiseDeferred (next_promise c)) c'
    /\ isHandling (toPeerDataQueue_ c') = false
    /\ next_promise c' = S (next_promise c)
    /\ settled c' = settled c.
Proof.
  intros Hh. unfold toPeerDataQueue_handle. rewrite Hh.
  eexists. split; [reflexivity|]. now destruct c.
Qed.

Lemma forEach_handle_suspended (chunks : list ArrayBuffer) (promises : list Promise) c :
  isHandling (toPeerDataQueue_ c) = false ->
  exists c',
    forEach_handle chunks promises c
    = Normal (promises ++ map PromiseDeferred (seq (next_promise c) (length chunks))) c'
    /\ settled c' = settled c.
Proof.
  revert promises c. induction chunks as [|ch rest IH]; intros promises c Hh.
  - exists c. cbn. now rewrite app_nil_r.
  - cbn [forEach_handle].
    destruct (toPeerDataQueue_handle_suspended (BufferData ch) c Hh)
      as (c1 & -> & Hh1 & Hn1 & Hs1).
    cbn [bind].
    destruct (IH (promises ++ [PromiseDeferred (next_promise c)]) c1 Hh1)
      as (c' & -> & Hs').
    exists c'. rewrite Hn1, <- app_assoc. cbn. split; [reflexivity|congruence].
Qed.

Lemma units_of_text (sv bv : JsValue) (s : jsstring) :
  sv = JsString s ->
  units_of {| str := sv; buffer := bv |}
  = if string_length s * 2 >? MAX_MESSAGE_SIZE then [] else [StringData s].
Proof. intros ->. reflexivity. Qed.

(** [send] returns a promise and hands [units_of] its argument to the
    outbound queue; with consumption suspended it settles nothing, and the
    promise it returns for what it queued is a waiting one. *)
Lemma send_offers (data : Data) c :
  exists p c',
    send data c = Normal (Some p) c'
    /\ offered (units_of data) c c'
    /\ (isHandling (toPeerDataQueue_ c) = false ->
        settled c' = settled c
        /\ (units_of data <> [] -> waiting p)).
Proof.
  unfold send, units_of, send_byteLength, chunkStringOntoQueue_, chunkBufferOntoQueue_.
  destruct data as [sv bv]; cbn [str buffer].
  destruct (negb _) eqn:Hmal.
  { eexists _, c. split; [reflexivity|]. split; [apply offered_nil|].
    intros _. split; [reflexivity|congruence]. }
  destruct sv as [| |sb|sn|s|sab|]; destruct bv as [| |bb|bn|bs|b|];
    cbn in Hmal; try discriminate Hmal;
    cbn [truthy property_byteLength exceeds typeof_string].
  all: match goal with
       | |- context [string_length ?s * 2 >? _] =>
           destruct (string_length s * 2 >? MAX_MESSAGE_SIZE)
       | |- context [byteLength ?b >? _] =>
           destruct (byteLength b >? MAX_MESSAGE_SIZE)
       end.
  all: try (eexists _, c; split; [reflexivity|]; split; [apply offered_nil|];
            intros _; split; [reflexivity|congruence]).
  all: match goal with
       | |- context [toPeerDataQueue_handle (StringData ?s) _] =>
           destruct (toPeerDataQueue_handle_returns rtc_send rtc_sendBuffer (StringData s) c)
             as (p & c' & Heq & Ho);
           rewrite Heq; cbn [bind]; exists p, c'; (split; [reflexivity|]);
           (split; [exact Ho|]); intros Hh;
           destruct (toPeerDataQueue_handle_suspended (StringData s) c Hh)
             as (c'' & Heq' & _ & _ & Hs);
           rewrite Heq in Heq'; injection Heq' as -> ->;
           (split; [exact Hs|]); intros _; left; eauto
       | |- context [forEach_handle (chunk ?b ?n) [] _] =>
           destruct (forEach_handle_returns rtc_send rtc_sendBuffer (chunk b n) [] c)
             as (ps & c' & Heq & _ & Ho);
           rewrite Heq; cbn [bind]; exists (PromiseAll ps), c';
           (split; [reflexivity|]); (split; [exact Ho|]); intros Hh;
           destruct (forEach_handle_suspended (chunk b n) [] c Hh)
             as (c'' & Heq' & Hs);
           rewrite Heq in Heq'; injection Heq' as -> ->;
           (split; [exact Hs|]); intros Hne; right;
           exists (seq (next_promise c) (length (chunk b n)));
           (split; [|reflexivity]);
           destruct (chunk b n); cbn in Hne |- *; [congruence|discriminate]
       end.
Qed.

(** X7.  [send] always returns a promise: it never runs off its end, which
    would return [undefined], and it never throws, whatever it is given
    and whatever the transport does. *)
Theorem send_returns_promise (data : Data) c :
  exists p c', send data c = Normal (Some p) c'.
Proof.
  destruct (send_offers data c) as (p & c' & Heq & _). eauto.
Qed.

(** *** What a step does to the outbound path *)

(** The calls that draining the queue of [c] makes. *)
Local Abbreviation waiting_calls c := (flat_map calls_of (things (toPeerDataQueue_ c))).

Lemma onBufferedAmount_over (n : Z) c :
  (n + CHUNK_SIZE >? PC_QUEUE_LIMIT) = true ->
  exists c',
    onBufferedAmount n c = Normal tt c'
    /\ isHandling (toPeerDataQueue_ c') = false
    /\ queue_ (toPeerDataQueue_ c') = queue_ (toPeerDataQueue_ c)
    /\ wire c' = wire c
    /\ settled c' = settled c.
Proof.
  intros Hn. unfold onBufferedAmount. rewrite Hn.
  eexists. split; [reflexivity|].
  destruct (isHandling (toPeerDataQueue_ c)) eqn:Hh; destruct c; cbn in *; auto.
Qed.

(** A step that is not a call of [send] leaves the outbound path alone,
    or drains the queue with the handler set, or suspends consumption. *)
Lemma step_outbound c ev :
  match ev with
  | Send d =>
      offered (units_of d) c (step c ev)
      /\ (isHandling (toPeerDataQueue_ c) = false -> settled (step c ev) = settled c)
  | _ =>
      (toPeerDataQueue_ (step c ev) = toPeerDataQueue_ c
       /\ wire (step c ev) = wire c
       /\ settled (step c ev) = settled c)
      \/ (isHandling (toPeerDataQueue_ (step c ev)) = true
          /\ queue_ (toPeerDataQueue_ (step c ev)) = []
          /\ wire (step c ev) = wire c ++ waiting_calls c)
      \/ (isHandling (toPeerDataQueue_ (step c ev)) = false
          /\ queue_ (toPeerDataQueue_ (step c ev)) = queue_ (toPeerDataQueue_ c)
          /\ wire (step c ev) = wire c
          /\ settled (step c ev) = settled c)
  end.
Proof.
  destruct ev as [state| | |m| |n| |d| |r]; cbn [step].
  - destruct (readyState_requested c); [|now left].
    unfold onReadyState. destruct (String.eqb state "open").
    + destruct (fulfillOpened_returns rtc_send rtc_sendBuffer
                  (set_readyState_requested false c))
        as (c' & -> & _ & _ & _ & Hcase).
      cbn [after]. destruct (onceOpened (set_readyState_requested false c)).
      * right. left. destruct Hcase as (Hh & Hq & Hw).
        rewrite Hw. repeat split; auto. now destruct c.
      * left. subst c'. now destruct c.
    + left. destruct (String.eqb state "connecting"); now destruct c.
  - destruct (onopen_listener c); [|now left].
    destruct (fulfillOpened_returns rtc_send rtc_sendBuffer c)
      as (c' & -> & _ & _ & _ & Hcase).
    cbn [after]. destruct (onceOpened c).
    + right. left. exact Hcase.
    + left. now subst c'.
  - left. unfold fulfillClosed, rejectOpened_, not_opennedSuccessfully_.
    destruct c as [? ? o cl fl ? ? ? ? ? ? ? ? ?]; cbn.
    destruct cl; cbn; auto. destruct fl as [[|]|]; destruct o; cbn; auto.
  - left. destruct (onDataFromPeer__frame m c) as (q & l & ->). now destruct c.
  - left. now destruct c.
  - destruct (bufferedAmount_requested c) as [|k] eqn:Hk; [now left|].
    destruct (n + CHUNK_SIZE >? PC_QUEUE_LIMIT) eqn:Hn.
    + destruct (onBufferedAmount_over n (set_bufferedAmount_requested k c) Hn)
        as (c' & -> & Hh & Hq & Hw & Hs).
      cbn [after]. right. right. rewrite Hq, Hw, Hs. now destruct c.
    + destruct (onBufferedAmount_returns rtc_send rtc_sendBuffer n
                  (set_bufferedAmount_requested k c))
        as (c' & -> & _ & _ & Hcase).
      cbn [after]. rewrite Hn in Hcase. destruct Hcase as (Hh & _ & Hcase).
      destruct (isHandling (toPeerDataQueue_ (set_bufferedAmount_requested k c))).
      * left. subst c'. now destruct c.
      * right. left. destruct Hcase as (Hq & Hw). rewrite Hw.
        repeat split; auto. now destruct c.
  - left. destruct (timeouts c); now destruct c.
  - destruct (send_offers d c) as (p & c' & -> & Ho & Hs).
    cbn [after]. split; [exact Ho|]. intros Hh. now apply Hs.
  - left. now destruct c.
  - left. now destruct c.
Qed.

(** While consumption is active nothing waits in the outbound queue. *)
Lemma active_queue_empty c :
  reachable c ->
  isHandling (toPeerDataQueue_ c) = true ->
  queue_ (toPeerDataQueue_ c) = [].
Proof.
  induction 1 as [rtc|c ev Hc IH]; [discriminate|].
  pose proof (step_outbound c ev) as Hstep.
  destruct ev; try (destruct Hstep as [(Hq & _)|[(_ & Hq & _)|(Hh & _)]];
                    [rewrite Hq; exact IH|auto|congruence]).
  destruct Hstep as [[Hf Ho] _]. intros Hh.
  rewrite (isHandling_handler_ _ _ (frame_handler_ _ _ Hf)) in Hh.
  rewrite Hh in Ho. destruct Ho as [_ Hq]. rewrite Hq. auto.
Qed.

(** The things the calls of [send] handed to the queue are, in their
    order, those that went on to the transport followed by those that
    wait in the queue. *)
Lemma delivered_and_queued (rtc : RTC) evs :
  let c := run (constructor rtc) evs in
  exists delivered,
    sent_units evs = delivered ++ things (toPeerDataQueue_ c)
    /\ wire c = flat_map calls_of delivered.
Proof.
  induction evs as [|ev evs IH] using rev_ind; [now exists []|].
  cbn zeta in *. rewrite (run_snoc rtc_send rtc_sendBuffer rtc_close).
  unfold sent_units in *. rewrite !flat_map_app. cbn [flat_map]. rewrite app_nil_r.
  destruct IH as (delivered & Hsent & Hwire). rewrite Hsent.
  assert (reachable (run (constructor rtc) evs)) as Hc
    by (apply reachable_run; constructor).
  set (c := run (constructor rtc) evs) in *.
  pose proof (step_outbound c ev) as Hstep.
  pose proof (active_queue_empty c Hc) as Hempty.
  destruct ev;
    try (rewrite app_nil_r;
         destruct Hstep as [(Hq & Hw & _)|[(_ & Hq & Hw)|(_ & Hq & Hw & _)]];
         [ exists delivered; now rewrite Hq, Hw
         | exists (delivered ++ things (toPeerDataQueue_ c));
           unfold things at 3; rewrite Hq, Hw, Hwire, flat_map_app;
           cbn [map]; now rewrite app_nil_r
         | exists delivered; unfold things; now rewrite Hq, Hw ]).
  destruct Hstep as [[Hf Ho] _].
  destruct (isHandling (toPeerDataQueue_ c)).
  - destruct Ho as [Hw Hq]. exists (delivered ++ units_of d).
    unfold things. rewrite Hw, Hq, (Hempty eq_refl), Hwire, flat_map_app.
    cbn. now rewrite !app_nil_r.
  - destruct Ho as (Hq & Hw & _). exists delivered.
    rewrite Hq, Hw. now rewrite app_assoc.
Qed.

(** X8.  Outbound delivery is first in, first out, without loss and without
    repetition: at every point of a channel's life, the calls made of the
    transport's send primitives, followed by the calls that the entries
    still in the queue will make, are exactly the calls for what [send] was
    given, in the order it was given. *)
Theorem delivery_in_order (rtc : RTC) evs :
  let c := run (constructor rtc) evs in
  wire c ++ flat_map calls_of (things (toPeerDataQueue_ c))
  = flat_map calls_of (sent_units evs).
Proof.
  cbn zeta. destruct (delivered_and_queued rtc evs) as (delivered & -> & ->).
  now rewrite flat_map_app.
Qed.

(** *** What reaches the transport *)

Lemma units_of_shape (data : Data) : Forall chunk_unit (units_of data).
Proof.
  unfold units_of. destruct (negb _); [constructor|].
  destruct (str data), (buffer data); try constructor;
    repeat match goal with |- context [if ?b then _ else _] => destruct b end;
    try constructor; try (left; eauto; fail); try constructor.
  all: match goal with |- Forall _ (map _ ?l) => induction l as [|ch rest IH] end;
    cbn [map]; constructor; [right; eauto|exact IH].
Qed.

Lemma units_of_bounded (data : Data) :
  Forall bounded_call (flat_map calls_of (units_of data)).
Proof.
  assert (forall b, Forall bounded_call
                      (flat_map calls_of (map BufferData (chunk b (Z.to_nat CHUNK_SIZE)))))
    as Hchunks.
  { intros b. rewrite calls_of_BufferData.
    pose proof (chunk_sizes b (Z.to_nat CHUNK_SIZE)) as Hsz.
    pose proof (chunk_nonempty b (Z.to_nat CHUNK_SIZE)) as Hne.
    induction Hsz as [|ch rest Hch Hrest IH]; [constructor|].
    inversion Hne as [|? ? Hch' Hrest']; subst.
    constructor; [|now apply IH].
    exists ch. split; [reflexivity|]. unfold byteLength.
    destruct ch; [congruence|]. cbn [length] in *.
    change CHUNK_SIZE with (Z.of_nat (Z.to_nat CHUNK_SIZE)). lia. }
  unfold units_of. destruct (negb _); [constructor|].
  destruct (str data), (buffer data); try constructor;
    repeat match goal with |- context [if ?b then _ else _] => destruct b end;
    try constructor; try exact I; try constructor; try apply Hchunks.
Qed.

Lemma sent_units_shape evs : Forall chunk_unit (sent_units evs).
Proof.
  unfold sent_units. induction evs as [|ev evs IH]; [constructor|].
  cbn [flat_map]. apply Forall_app. split; [|exact IH].
  destruct ev; try constructor. apply units_of_shape.
Qed.

Lemma sent_units_bounded evs :
  Forall bounded_call (flat_map calls_of (sent_units evs)).
Proof.
  unfold sent_units. induction evs as [|ev evs IH]; [constructor|].
  cbn [flat_map]. rewrite flat_map_app. apply Forall_app. split; [|exact IH].
  destruct ev; try constructor. apply units_of_bounded.
Qed.

Lemma chunk_unit_typed (ds : list Data) :
  Forall chunk_unit ds -> Forall typed_call (flat_map calls_of ds).
Proof.
  induction 1 as [|d ds Hd Hds IH]; [constructor|].
  cbn [flat_map]. apply Forall_app. split; [|exact IH].
  destruct Hd as [[s ->]|[b ->]]; repeat constructor. cbn. eauto.
Qed.

(** X9.  The drain step only ever gets well-typed things: every entry of the
    outbound queue is a text [{str: s}] or a chunk [{buffer: b}], the
    transport's [sendBuffer] is only ever called with an [ArrayBuffer], and
    so the 'Bad data' branch of the drain step is not reached through
    [send]. *)
Theorem drain_step_is_typed (rtc : RTC) evs :
  let c := run (constructor rtc) evs in
  Forall chunk_unit (things (toPeerDataQueue_ c))
  /\ Forall typed_call (wire c).
Proof.
  cbn zeta. destruct (delivered_and_queued rtc evs) as (delivered & Hsent & ->).
  pose proof (sent_units_shape evs) as Hshape. rewrite Hsent in Hshape.
  apply Forall_app in Hshape as [Hd Hq].
  split; [exact Hq|]. now apply chunk_unit_typed.
Qed.

(** X10.  Every binary message the transport is handed is a non-empty
    [ArrayBuffer] of at most CHUNK_SIZE = 15 * 1024 bytes, however large
    the buffers given to [send] were. *)
Theorem binary_messages_bounded (rtc : RTC) evs :
  CHUNK_SIZE = 15 * 1024
  /\ Forall bounded_call (wire (run (constructor rtc) evs)).
Proof.
  split; [reflexivity|].
  destruct (delivered_and_queued rtc evs) as (delivered & Hsent & ->).
  pose proof (sent_units_bounded evs) as Hb. rewrite Hsent, flat_map_app in Hb.
  now apply Forall_app in Hb as [Hd _].
Qed.

(** *** Before the channel has opened *)

Lemma no_calls_no_units (ds : list Data) :
  Forall chunk_unit ds -> flat_map calls_of ds = [] -> ds = [].
Proof.
  destruct 1 as [|d ds [[s ->]|[b ->]] _]; [reflexivity| |]; discriminate.
Qed.

(** Only the answer to [getReadyState()] and the open event fulfil
    [onceOpened]. *)
Lemma step_keeps_unopened c ev :
  match ev with ReadyState _ | OnOpen => False | _ => True end ->
  onceOpened (step c ev) = Settled Fulfilled ->
  onceOpened c = Settled Fulfilled.
Proof.
  intros Hev.
  change (onceOpened (step c ev)) with (l_onceOpened (lifecycle_of (step c ev))).
  rewrite (step_lifecycle rtc_send rtc_sendBuffer rtc_close).
  destruct ev; try contradiction; cbn; auto.
  unfold lifecycle_close; cbn.
  destruct (onceClosed c); cbn; auto.
  destruct (opennedSuccessfully_ c) as [[|]|], (onceOpened c); congruence.
Qed.

(** The step that fulfils [onceOpened] installs the handler and drains
    the queue. *)
Lemma step_opens c ev :
  onceOpened c <> Settled Fulfilled ->
  onceOpened (step c ev) = Settled Fulfilled ->
  isHandling (toPeerDataQueue_ (step c ev)) = true
  /\ queue_ (toPeerDataQueue_ (step c ev)) = []
  /\ wire (step c ev) = wire c ++ flat_map calls_of (things (toPeerDataQueue_ c)).
Proof.
  intros Hno Ho.
  destruct ev as [state| | |m| |n| |d| |r].
  3-10: exfalso; apply Hno; revert Ho; now apply step_keeps_unopened.
  - cbn [step] in *. destruct (readyState_requested c); [|contradiction].
    unfold onReadyState in *. destruct (String.eqb state "open").
    + destruct (fulfillOpened_returns rtc_send rtc_sendBuffer
                  (set_readyState_requested false c))
        as (c' & Heq & _ & _ & _ & Hcase).
      rewrite Heq in *. cbn [after] in *.
      destruct (onceOpened (set_readyState_requested false c)) eqn:Ho0.
      * destruct Hcase as (Hh & Hq & Hw). rewrite Hw. repeat split; auto.
        now destruct c.
      * subst c'. exfalso. apply Hno. rewrite <- Ho. now destruct c.
    + exfalso. apply Hno. rewrite <- Ho.
      destruct (String.eqb state "connecting"); now destruct c.
  - cbn [step] in *. destruct (onopen_listener c); [|contradiction].
    destruct (fulfillOpened_returns rtc_send rtc_sendBuffer c)
      as (c' & Heq & _ & _ & _ & Hcase).
    rewrite Heq in *. cbn [after] in *.
    destruct (onceOpened c) eqn:Ho0; [exact Hcase|]. subst c'. congruence.
Qed.

(** X11.  What is sent before the channel has opened waits: until [onceOpened]
    is fulfilled the transport's send primitives are not called, and the
    outbound queue holds everything [send] accepted, in order.  The step
    that opens the channel hands all of it to the transport, in that
    order, and leaves the queue empty. *)
Theorem sends_before_open_wait (rtc : RTC) evs ev :
  let c := run (constructor rtc) evs in
  onceOpened c <> Settled Fulfilled ->
  wire c = []
  /\ things (toPeerDataQueue_ c) = sent_units evs
  /\ (onceOpened (step c ev) = Settled Fulfilled ->
      wire (step c ev) = flat_map calls_of (sent_units evs)
      /\ queue_ (toPeerDataQueue_ (step c ev)) = []).
Proof.
  intros c Hno.
  assert (reachable c) as Hc by (apply reachable_run; constructor).
  destruct (reachable_idle rtc_send rtc_sendBuffer rtc_close c Hc Hno)
    as (_ & _ & _ & Hw).
  destruct (delivered_and_queued rtc evs) as (delivered & Hsent & Hwire).
  fold c in Hsent, Hwire.
  assert (delivered = []) as ->.
  { apply no_calls_no_units; [|congruence].
    pose proof (sent_units_shape evs) as Hshape. rewrite Hsent in Hshape.
    now apply Forall_app in Hshape as [Hd _]. }
  cbn [app] in Hsent. split; [exact Hw|]. split; [now rewrite Hsent|].
  intros Ho. destruct (step_opens c ev Hno Ho) as (_ & Hq & Hw').
  rewrite Hw', Hw, Hsent. auto.
Qed.

(** Until [onceOpened] is fulfilled no promise of the outbound queue has
    been settled. *)
Lemma reachable_unsettled c :
  reachable c -> onceOpened c <> Settled Fulfilled -> settled c = ∅.
Proof.
  induction 1 as [rtc|c ev Hc IH]; intros Hno; [reflexivity|].
  assert (onceOpened c <> Settled Fulfilled) as Hno0.
  { intros Ho. apply Hno.
    now apply (step_onceOpened_settled rtc_send rtc_sendBuffer rtc_close). }
  destruct (reachable_idle rtc_send rtc_sendBuffer rtc_close c Hc Hno0) as (Hh & _).
  destruct (reachable_idle rtc_send rtc_sendBuffer rtc_close (step c ev)
              ltac:(now constructor) Hno) as (Hh' & _).
  pose proof (step_outbound c ev) as Hstep.
  destruct ev;
    try (destruct Hstep as [(_ & _ & Hs)|[(Hh'' & _)|(_ & _ & _ & Hs)]];
         [rewrite Hs; auto|congruence|rewrite Hs; auto]).
  destruct Hstep as [_ Hs]. rewrite (Hs Hh). auto.
Qed.

Lemma waiting_is_pending (p : Promise) : waiting p -> status ∅ p = StillPending.
Proof.
  intros [[id ->]|(ids & Hne & ->)]; [reflexivity|].
  destruct ids as [|id ids]; [congruence|]. clear Hne.
  revert id. induction ids as [|id' ids IH]; intros id; [reflexivity|].
  specialize (IH id').
  change (status ∅ (PromiseAll (map PromiseDeferred (id :: id' :: ids))))
    with (match status ∅ (PromiseDeferred id),
                status ∅ (PromiseAll (map PromiseDeferred (id' :: ids))) with
          | IsRejected, _ | _, IsRejected => IsRejected
          | IsFulfilled, IsFulfilled => IsFulfilled
          | _, _ => StillPending
          end).
  now rewrite IH.
Qed.

(** X12.  The promise [send] returns for a payload it accepts on a channel
    that has not opened stays pending for as long as the channel has not
    opened; on a channel that failed to open it stays pending for good: the
    payload waits in a queue that is never drained, and nothing rejects its
    promise. *)
Theorem queued_promise_waits (data : Data) c :
  reachable c ->
  onceOpened c <> Settled Fulfilled ->
  units_of data <> [] ->
  exists p c',
    send data c = Normal (Some p) c'
    /\ (forall evs, onceOpened (run c' evs) <> Settled Fulfilled ->
                    status (settled (run c' evs)) p = StillPending)
    /\ (channel_state c = FailedToOpen ->
        forall evs, status (settled (run c' evs)) p = StillPending).
Proof.
  intros Hc Hno Hunits.
  destruct (reachable_idle rtc_send rtc_sendBuffer rtc_close c Hc Hno) as (Hh & _).
  destruct (send_offers data c) as (p & c' & Heq & _ & Hs).
  destruct (Hs Hh) as (_ & Hwait). specialize (Hwait Hunits).
  assert (reachable c') as Hc'.
  { replace c' with (step c (Send data)); [now constructor|].
    cbn [step]. now rewrite Heq. }
  assert (forall evs, onceOpened (run c' evs) <> Settled Fulfilled ->
                      status (settled (run c' evs)) p = StillPending) as Hpend.
  { intros evs Hno'.
    rewrite (reachable_unsettled (run c' evs)); auto using waiting_is_pending.
    now apply reachable_run. }
  exists p, c'. split; [exact Heq|]. split; [exact Hpend|].
  intros Hst evs. apply Hpend.
  assert (exists e, onceOpened c = Settled (Rejected e)) as [e He].
  { unfold channel_state in Hst.
    destruct (onceOpened c) as [|[|e]]; try destruct (onceClosed c);
      try discriminate; eauto. }
  assert (onceOpened c' = Settled (Rejected e)) as He'.
  { replace c' with (step c (Send data)) by (cbn [step]; now rewrite Heq).
    now apply step_onceOpened_settled. }
  rewrite (run_onceOpened_settled rtc_send rtc_sendBuffer rtc_close c' evs _ He').
  discriminate.
Qed.

(** *** Inbound messages, whatever the state *)

Lemma step_dataFromPeerQueue c ev :
  dataFromPeerQueue (step c ev)
  = dataFromPeerQueue c
    ++ match ev with OnMessage m => option_list (classify m) | _ => [] end.
Proof.
  destruct ev as [state| | |m| |n| |d| |r]; cbn [step]; rewrite ?app_nil_r.
  - destruct (readyState_requested c); [|reflexivity].
    unfold onReadyState. destruct (String.eqb state "open").
    + destruct (fulfillOpened_returns rtc_send rtc_sendBuffer
                  (set_readyState_requested false c))
        as (c' & -> & _ & Hd & _).
      cbn [after]. rewrite Hd. now destruct c.
    + destruct (String.eqb state "connecting"); now destruct c.
  - destruct (onopen_listener c); [|reflexivity].
    now destruct (fulfillOpened_returns rtc_send rtc_sendBuffer c)
      as (c' & -> & _ & Hd & _).
  - unfold fulfillClosed, rejectOpened_, not_opennedSuccessfully_.
    destruct c as [? ? o cl fl ? ? ? ? ? ? ? ? ?]; cbn.
    destruct cl; cbn; auto. destruct fl as [[|]|]; destruct o; cbn; auto.
  - unfold onDataFromPeer_, dataFromPeerQueue_handle, classify, JSON_stringify.
    destruct (text m); try destruct (message_buffer m);
      try destruct (forallb stringifiable _); cbn [bind after];
      destruct c; cbn; rewrite ?app_nil_r; reflexivity.
  - now destruct c.
  - destruct (bufferedAmount_requested c) as [|k]; [reflexivity|].
    destruct (onBufferedAmount_returns rtc_send rtc_sendBuffer n
                (set_bufferedAmount_requested k c))
      as (c' & -> & _ & Hd & _).
    cbn [after]. rewrite Hd. now destruct c.
  - destruct (timeouts c); now destruct c.
  - destruct (send_offers d c) as (p & c' & -> & [Hf _] & _).
    cbn [after]. apply (frame_dataFromPeerQueue _ _ Hf).
  - now destruct c.
  - now destruct c.
Qed.

(** X15.  Every message of a recognized shape reaches the inbound queue, in
    the order of arrival, whatever else happens in between and whatever
    the state of the channel: messages that arrive before it has opened or
    after it has closed are queued all the same. *)
Theorem inbound_in_every_state (rtc : RTC) evs :
  dataFromPeerQueue (run (constructor rtc) evs) = omap classify (messages_of evs).
Proof.
  induction evs as [|ev evs IH] using rev_ind; [reflexivity|].
  rewrite (run_snoc rtc_send rtc_sendBuffer rtc_close), step_dataFromPeerQueue, IH.
  unfold messages_of. rewrite flat_map_app. cbn [flat_map]. rewrite app_nil_r.
  rewrite omap_app. f_equal.
  destruct ev; reflexivity.
Qed.

(** *** While consumption is suspended *)

Lemma step_suspended c ev :
  isHandling (toPeerDataQueue_ c) = false ->
  onceOpened c <> Pending ->
  over_ceiling ev = true ->
  wire (step c ev) = wire c
  /\ isHandling (toPeerDataQueue_ (step c ev)) = false
  /\ onceOpened (step c ev) <> Pending
  /\ things (toPeerDataQueue_ (step c ev))
     = things (toPeerDataQueue_ c)
       ++ match ev with Send d => units_of d | _ => [] end.
Proof.
  intros Hh Ho Hev.
  assert (onceOpened (step c ev) <> Pending) as Ho'.
  { destruct (onceOpened c) as [|r] eqn:Hr; [congruence|].
    now rewrite (step_onceOpened_settled rtc_send rtc_sendBuffer rtc_close c ev r Hr). }
  destruct ev as [state| | |m| |n| |d| |r]; cbn [step] in *; rewrite ?app_nil_r.
  - destruct (readyState_requested c); [|auto].
    unfold onReadyState. destruct (String.eqb state "open").
    + destruct (fulfillOpened_returns rtc_send rtc_sendBuffer
                  (set_readyState_requested false c))
        as (c' & Heq & _ & _ & _ & Hcase).
      rewrite Heq in *. cbn [after] in *.
      destruct (onceOpened (set_readyState_requested false c)) eqn:Ho0.
      * exfalso. apply Ho. rewrite <- Ho0. now destruct c.
      * subst c'. destruct c; cbn in *; auto.
    + destruct (String.eqb state "connecting"); destruct c; cbn in *; auto.
  - destruct (onopen_listener c); [|auto].
    destruct (fulfillOpened_returns rtc_send rtc_sendBuffer c)
      as (c' & Heq & _ & _ & _ & Hcase).
    rewrite Heq in *. cbn [after] in *.
    destruct (onceOpened c); [congruence|]. subst c'. auto.
  - destruct (fulfillClosed_outbound c)
      as (Hq & Hw & _).
    rewrite Hq, Hw. auto.
  - destruct (onDataFromPeer__frame m c) as (q & l & ->). destruct c; cbn in *; auto.
  - destruct c; cbn in *; auto.
  - destruct (bufferedAmount_requested c) as [|k]; [auto|].
    destruct (onBufferedAmount_over n (set_bufferedAmount_requested k c) Hev)
      as (c' & Heq & Hh' & Hq & Hw & _).
    rewrite Heq in *. cbn [after] in *. unfold things. rewrite Hq, Hw.
    destruct c; cbn in *; auto.
  - destruct (timeouts c); destruct c; cbn in *; auto.
  - destruct (send_offers d c) as (p & c' & Heq & [Hf Hoff] & _).
    rewrite Heq in *. cbn [after] in *. rewrite Hh in Hoff.
    destruct Hoff as (Hq & Hw & _).
    rewrite (isHandling_handler_ _ _ (frame_handler_ _ _ Hf)). auto.
  - destruct c; cbn in *; auto.
  - destruct c; cbn in *; auto.
Qed.

(** X14.  Once consumption is suspended on a channel that has opened (or
    failed to), nothing reaches the transport until a sample of the
    buffered amount comes in under the ceiling: whatever else happens, the
    send primitives are not called, and what [send] accepts accumulates in
    the queue in order. *)
Theorem suspended_sends_nothing c evs :
  isHandling (toPeerDataQueue_ c) = false ->
  onceOpened c <> Pending ->
  forallb over_ceiling evs = true ->
  wire (run c evs) = wire c
  /\ isHandling (toPeerDataQueue_ (run c evs)) = false
  /\ things (toPeerDataQueue_ (run c evs))
     = things (toPeerDataQueue_ c) ++ sent_units evs.
Proof.
  revert c. induction evs as [|ev evs IH]; intros c Hh Ho Hevs.
  - cbn. now rewrite app_nil_r.
  - cbn [forallb] in Hevs. apply andb_prop in Hevs as [Hev Hevs].
    destruct (step_suspended c ev Hh Ho Hev) as (Hw & Hh' & Ho' & Hq).
    destruct (IH (step c ev) Hh' Ho' Hevs) as (Hw2 & Hh2 & Hq2).
    change (run c (ev :: evs)) with (run (step c ev) evs).
    rewrite Hw2, Hq2, Hq, Hw.
    unfold sent_units. cbn [flat_map]. now rewrite app_assoc.
Qed.


(** *** The promises of the outbound queue *)

Lemma handleSendDataToPeer__outcome d c :
  chunk_unit d ->
  exists p c' r,
    handleSendDataToPeer_ d c = Normal p c'
    /\ settlement_of p = Some r
    /\ delivery_outcome r
    /\ toPeerDataQueue_ c' = toPeerDataQueue_ c
    /\ settled c' = settled c
    /\ next_promise c' = next_promise c.
Proof.
  unfold handleSendDataToPeer_, rtcDataChannel_send, rtcDataChannel_sendBuffer,
    delivery_outcome.
  intros [[s ->]|[b ->]]; cbn [str buffer StringData BufferData truthy].
  - destruct (rtc_send (rtcDataChannel_ (set_wire (wire c ++ [CallSend s]) c)) s)
      eqn:Hsend; cbn; eexists _, _, _; (split; [reflexivity|]);
      (split; [reflexivity|]); destruct c; cbn; eauto 6.
  - destruct (rtc_sendBuffer
                (rtcDataChannel_ (set_wire (wire c ++ [CallSendBuffer (JsArrayBuffer b)]) c))
                (JsArrayBuffer b))
      eqn:Hsend; cbn; eexists _, _, _; (split; [reflexivity|]);
      (split; [reflexivity|]); destruct c; cbn; eauto 6.
Qed.

Lemma processQueue__settles (pending : list PendingPromiseHandler) c :
  isHandling (toPeerDataQueue_ c) = true ->
  Forall chunk_unit (map thing pending) ->
  List.NoDup (map completion pending) ->
  exists c',
    processQueue_ rtc_send rtc_sendBuffer pending c = Normal tt c'
    /\ next_promise c' = next_promise c
    /\ (forall id, In id (map completion pending) ->
                   exists r, settled c' !! id = Some r /\ delivery_outcome r)
    /\ (forall id, ~ In id (map completion pending) ->
                   settled c' !! id = settled c !! id).
Proof.
  revert c. induction pending as [|entry rest IH]; intros c Hh Hunits Hdistinct.
  - exists c. cbn. repeat split; auto. intros id [].
  - cbn [processQueue_]. rewrite Hh.
    cbn [map] in Hunits, Hdistinct.
    inversion Hunits as [|? ? Hunit Hunits']; subst.
    inversion Hdistinct as [|? ? Hfresh Hdistinct']; subst.
    set (c1 := set_toPeerDataQueue_ _ c).
    destruct (handleSendDataToPeer__outcome (thing entry) c1 Hunit)
      as (p & c2 & r & -> & Hp & Hr & Hq2 & Hs2 & Hn2).
    cbn [bind]. unfold settle. rewrite Hp.
    set (c3 := set_settled _ c2).
    destruct (IH c3) as (c' & -> & Hn' & Hin & Hout); auto.
    { subst c3 c1. rewrite <- Hh. destruct c2, c; cbn in *. now subst. }
    assert (settled c3 = <[completion entry := r]> (settled c)
            /\ next_promise c3 = next_promise c) as [Hs3 Hn3].
    { subst c3 c1. destruct c2, c; cbn in *. now subst. }
    exists c'. split; [reflexivity|]. split; [congruence|]. split.
    + intros id [<-|Hid]; [|now apply Hin].
      exists r. split; [|exact Hr].
      rewrite (Hout _ Hfresh), Hs3. apply lookup_insert_eq.
    + intros id Hid. cbn [map In] in Hid.
      rewrite Hout by tauto. rewrite Hs3. apply lookup_insert_ne. tauto.
Qed.

Lemma promises_accounted_ext c c' :
  toPeerDataQueue_ c' = toPeerDataQueue_ c ->
  settled c' = settled c ->
  next_promise c' = next_promise c ->
  promises_accounted c -> promises_accounted c'.
Proof.
  intros Hq Hs Hn [H1 H2 H3 H4 H5].
  constructor; rewrite ?Hq, ?Hs, ?Hn; auto.
Qed.

Lemma setHandler_accounted c :
  promises_accounted c ->
  exists c',
    setHandler c = Normal tt c'
    /\ promises_accounted c'
    /\ forall id r, settled c !! id = Some r -> settled c' !! id = Some r.
Proof.
  intros [H1 H2 H3 H4 H5]. unfold setHandler.
  set (c1 := set_toPeerDataQueue_ _ c).
  assert (isHandling (toPeerDataQueue_ c1) = true
          /\ settled c1 = settled c /\ next_promise c1 = next_promise c)
    as (Hh1 & Hs1 & Hn1) by (subst c1; now destruct c).
  destruct (processQueue__settles (queue_ (toPeerDataQueue_ c)) c1 Hh1 H5 H3)
    as (c' & Heq & Hn' & Hin & Hout).
  destruct (processQueue__returns rtc_send rtc_sendBuffer
              (queue_ (toPeerDataQueue_ c)) c1 Hh1)
    as (c'' & Heq' & _ & Hq' & _).
  rewrite Heq in Heq'. injection Heq' as <-.
  assert (queue_ (toPeerDataQueue_ c') = []) as Hempty.
  { rewrite Hq'. subst c1. destruct c as [? [[|] ?]]; reflexivity. }
  exists c'. split; [exact Heq|]. split.
  - constructor; unfold queued_promises, things in *; rewrite ?Hempty; cbn [map].
    + intros id. rewrite Hn', Hn1, H1. split.
      * intros [Hs|Hid].
        -- left. destruct (in_dec Nat.eq_dec id (map completion (queue_ (toPeerDataQueue_ c))))
             as [Hid|Hid].
           ++ destruct (Hin id Hid) as (r & -> & _). eauto.
           ++ now rewrite (Hout id Hid), Hs1.
        -- left. destruct (Hin id Hid) as (r & -> & _). eauto.
      * intros [Hs|[]].
        destruct (in_dec Nat.eq_dec id (map completion (queue_ (toPeerDataQueue_ c))))
          as [Hid|Hid]; [now right|].
        left. now rewrite <- Hs1, <- (Hout id Hid).
    + intros id [].
    + constructor.
    + intros id r Hr.
      destruct (in_dec Nat.eq_dec id (map completion (queue_ (toPeerDataQueue_ c))))
        as [Hid|Hid].
      * destruct (Hin id Hid) as (r' & Hr' & Hd). congruence.
      * rewrite (Hout id Hid), Hs1 in Hr. eauto.
    + constructor.
  - intros id r Hr.
    destruct (in_dec Nat.eq_dec id (map completion (queue_ (toPeerDataQueue_ c))))
      as [Hid|Hid].
    + rewrite (H2 id Hid) in Hr. discriminate.
    + now rewrite (Hout id Hid), Hs1.
Qed.

Lemma toPeerDataQueue_handle_accounted (x : Data) c :
  chunk_unit x ->
  promises_accounted c ->
  exists p c',
    toPeerDataQueue_handle x c = Normal p c'
    /\ promises_accounted c'
    /\ settled c' = settled c.
Proof.
  intros Hx Hc. unfold toPeerDataQueue_handle.
  destruct (isHandling (toPeerDataQueue_ c)) eqn:Hh.
  - destruct (handleSendDataToPeer__outcome x c Hx)
      as (p & c' & r & -> & _ & _ & Hq & Hs & Hn).
    exists p, c'. split; [reflexivity|]. split; [|exact Hs].
    now apply (promises_accounted_ext c c').
  - eexists _, _. split; [reflexivity|].
    destruct Hc as [H1 H2 H3 H4 H5].
    destruct c as [? [q h] ? ? ? ? ? ? ? ? st np ? ?];
      unfold queued_promises, things in *; cbn in *.
    split; [|reflexivity].
    constructor; unfold queued_promises, things; cbn; rewrite ?map_app; cbn [map].
    + intros id. rewrite in_app_iff. cbn [In]. split.
      * intros Hlt. destruct (Nat.eq_dec id np) as [->|Hne]; [tauto|].
        assert (id < np)%nat as Hlt' by lia. apply H1 in Hlt'. tauto.
      * intros [Hs|[Hid|[Heq|[]]]]; [| |cbn in Heq; lia];
          (assert (id < np)%nat by (apply H1; tauto)); lia.
    + intros id Hid. apply in_app_iff in Hid as [Hid|[Heq|[]]]; [auto|].
      cbn in Heq. subst id.
      destruct (st !! np) eqn:Hnp; [|reflexivity].
      assert (np < np)%nat by (apply H1; eauto). lia.
    + apply List.NoDup_app; auto.
      * repeat constructor. intros [].
      * intros id Hid [Heq|[]]. cbn in Heq. subst id.
        assert (np < np)%nat by (apply H1; tauto). lia.
    + exact H4.
    + apply Forall_app. split; [exact H5|]. constructor; [exact Hx|constructor].
Qed.

Lemma forEach_handle_accounted (chunks : list ArrayBuffer) (promises : list Promise) c :
  promises_accounted c ->
  exists ps c',
    forEach_handle chunks promises c = Normal ps c'
    /\ promises_accounted c'
    /\ settled c' = settled c.
Proof.
  revert promises c. induction chunks as [|ch rest IH]; intros promises c Hc.
  - exists promises, c. auto.
  - cbn [forEach_handle].
    destruct (toPeerDataQueue_handle_accounted (BufferData ch) c) as (p & c1 & -> & Hc1 & Hs1);
      [right; eauto|exact Hc|].
    cbn [bind].
    destruct (IH (promises ++ [p]) c1 Hc1) as (ps & c' & -> & Hc' & Hs').
    exists ps, c'. split; [reflexivity|]. split; [exact Hc'|congruence].
Qed.

Lemma send_accounted (data : Data) c :
  promises_accounted c ->
  promises_accounted (after (send data c))
  /\ settled (after (send data c)) = settled c.
Proof.
  intros Hc. unfold send, chunkStringOntoQueue_, chunkBufferOntoQueue_.
  destruct (negb _); [auto|]. destruct (exceeds _ _); [auto|].
  destruct data as [sv bv]; cbn [str buffer].
  destruct sv as [| |sb|sn|s|sab|]; destruct bv as [| |bb|bn|bs|b|]; cbn [truthy];
    repeat match goal with |- context [if ?b then _ else _] => destruct b end;
    auto.
  all: match goal with
       | |- context [toPeerDataQueue_handle (StringData ?s) _] =>
           destruct (toPeerDataQueue_handle_accounted (StringData s) c)
             as (p & c' & -> & Hc' & Hs); [left; eauto|exact Hc|]
       | |- context [forEach_handle ?l [] _] =>
           destruct (forEach_handle_accounted l [] c Hc) as (ps & c' & -> & Hc' & Hs)
       end; cbn; auto.
Qed.

Lemma step_accounted c ev :
  promises_accounted c ->
  promises_accounted (step c ev)
  /\ forall id r, settled c !! id = Some r -> settled (step c ev) !! id = Some r.
Proof.
  intros Hc.
  assert (forall c', toPeerDataQueue_ c' = toPeerDataQueue_ c ->
                     settled c' = settled c -> next_promise c' = next_promise c ->
                     promises_accounted c'
                     /\ forall id r, settled c !! id = Some r -> settled c' !! id = Some r)
    as Hsame.
  { intros c' Hq Hs Hn. split; [now apply (promises_accounted_ext c c')|].
    now rewrite Hs. }
  assert (forall c0, toPeerDataQueue_ c0 = toPeerDataQueue_ c ->
                     settled c0 = settled c -> next_promise c0 = next_promise c ->
                     promises_accounted (after (setHandler c0))
                     /\ forall id r, settled c !! id = Some r ->
                                     settled (after (setHandler c0)) !! id = Some r)
    as Hdrain.
  { intros c0 Hq Hs Hn.
    destruct (setHandler_accounted c0) as (c' & -> & Hc' & Hkeep).
    - now apply (promises_accounted_ext c c0).
    - cbn [after]. split; [exact Hc'|]. intros id r Hr. apply Hkeep. now rewrite Hs. }
  destruct ev as [state| | |m| |n| |d| |r]; cbn [step].
  - destruct (readyState_requested c); [|now apply Hsame].
    unfold onReadyState, fulfillOpened.
    destruct (String.eqb state "open").
    + destruct (onceOpened (set_readyState_requested false c)).
      * apply Hdrain; now destruct c.
      * apply Hsame; now destruct c.
    + destruct (String.eqb state "connecting"); apply Hsame; now destruct c.
  - destruct (onopen_listener c); [|now apply Hsame].
    unfold fulfillOpened. destruct (onceOpened c).
    + apply Hdrain; now destruct c.
    + now apply Hsame.
  - apply Hsame; unfold fulfillClosed, rejectOpened_, not_opennedSuccessfully_;
      destruct c as [? ? o cl fl ? ? ? ? ? ? ? ? ?]; cbn;
      destruct cl; cbn; auto; destruct fl as [[|]|]; destruct o; cbn; auto.
  - destruct (onDataFromPeer__frame m c) as (q & l & ->). apply Hsame; now destruct c.
  - apply Hsame; now destruct c.
  - destruct (bufferedAmount_requested c) as [|k]; [now apply Hsame|].
    unfold onBufferedAmount.
    destruct (n + CHUNK_SIZE >? PC_QUEUE_LIMIT).
    + cbn [after].
      destruct (isHandling (toPeerDataQueue_ (set_bufferedAmount_requested k c))) eqn:Hh.
      * destruct Hc as [H1 H2 H3 H4 H5].
        split; [|intros id r' Hr; now destruct c].
        destruct c as [? [q h] ? ? ? ? ? ? ? ? st np ? ?];
          unfold queued_promises, things in *; cbn in *.
        constructor; unfold queued_promises, things; cbn; auto.
      * apply Hsame; now destruct c.
    + destruct (isHandling (toPeerDataQueue_ (set_bufferedAmount_requested k c)));
        cbn [negb].
      * cbn [after]. apply Hsame; now destruct c.
      * apply Hdrain; now destruct c.
  - destruct (timeouts c); apply Hsame; now destruct c.
  - destruct (send_accounted d c Hc) as [Hc' Hs]. split; [exact Hc'|].
    intros id r' Hr. now rewrite Hs.
  - apply Hsame; now destruct c.
  - apply Hsame; now destruct c.
Qed.

Lemma reachable_accounted c : reachable c -> promises_accounted c.
Proof.
  induction 1 as [rtc|c ev Hc IH].
  - constructor; cbn.
    + intros id. split; [lia|]. intros [[r Hr]|[]]. now rewrite lookup_empty in Hr.
    + intros id [].
    + constructor.
    + intros id r Hr. now rewrite lookup_empty in Hr.
    + constructor.
  - now apply step_accounted.
Qed.

(** X16.  Every promise the outbound queue has handed out is accounted for:
    either it has been settled, fulfilled or rejected with the delivery
    error (never with 'Bad data'), or its entry still waits in the queue and
    it is pending; while consumption is active all of them are settled. *)
Theorem promises_are_accounted c (id : nat) :
  reachable c ->
  (id < next_promise c)%nat ->
  ((exists r, settled c !! id = Some r /\ delivery_outcome r)
   \/ (In id (queued_promises (toPeerDataQueue_ c)) /\ settled c !! id = None))
  /\ (isHandling (toPeerDataQueue_ c) = true -> is_Some (settled c !! id)).
Proof.
  intros Hc Hid. destruct (reachable_accounted c Hc) as [H1 H2 H3 H4 H5].
  apply H1 in Hid. split.
  - destruct Hid as [[r Hr]|Hq]; [left; eauto|right; auto].
  - intros Hh. destruct Hid as [Hs|Hq]; [exact Hs|].
    unfold queued_promises in Hq. rewrite (active_queue_empty c Hc Hh) in Hq.
    destruct Hq.
Qed.

(** X17.  A promise of the outbound queue is settled once: whatever happens
    after it has been settled, it keeps its outcome. *)
Theorem settled_for_good c evs (id : nat) (r : Settlement) :
  reachable c ->
  settled c !! id = Some r ->
  settled (run c evs) !! id = Some r.
Proof.
  revert c. induction evs as [|ev evs IH]; intros c Hc Hr; [exact Hr|].
  change (run c (ev :: evs)) with (run (step c ev) evs).
  apply IH; [now constructor|].
  now apply (step_accounted c ev (reachable_accounted c Hc)).
Qed.

End Outbound.


(** ** The further properties at work on [SimpleTransport] *)

Lemma reachable_simple (evs : list Event) :
  reachable SimpleTransport.send SimpleTransport.sendBuffer SimpleTransport.close
    (Simple.run Simple.fresh evs).
Proof. apply reachable_run. constructor. Qed.

(** The answer ['open'] moves a new channel from Connecting to Open. *)
Lemma channel_state_moves_witness :
  transition (channel_state Simple.fresh)
             (channel_state (Simple.step Simple.fresh (ReadyState "open"))).
Proof.
  apply (channel_state_moves SimpleTransport.send SimpleTransport.sendBuffer
           SimpleTransport.close Simple.fresh (ReadyState "open")).
  constructor.
Defined.

Lemma toString_shows_state_witness :
  toString (Some "chat"%string) Scenario.opened_late
  = "chat: opennedSuccessfully_=true"%string.
Proof.
  exact (toString_shows_state SimpleTransport.send SimpleTransport.sendBuffer
           SimpleTransport.close (Some "chat"%string) Scenario.opened_late
           (reachable_simple _)).
Defined.

Lemma close_while_open_witness :
  channel_state Scenario.opened_late = Open
  /\ channel_state (Simple.run (Simple.step Scenario.opened_late OnClose) [OnOpen]) = Closed.
Proof.
  split; [reflexivity|].
  apply (close_while_open SimpleTransport.send SimpleTransport.sendBuffer
           SimpleTransport.close Scenario.opened_late [OnOpen]
           (reachable_simple _) eq_refl).
Defined.

(** An open event that comes before the answer ['connecting'] is lost. *)
Lemma opens_through_readyState_witness :
  onceOpened (Simple.run Simple.fresh ([OnOpen] ++ [ReadyState "connecting"]))
  <> Settled Fulfilled.
Proof.
  refine (proj1 (proj2 (opens_through_readyState SimpleTransport.send
                          SimpleTransport.sendBuffer SimpleTransport.close
                          SimpleTransport.opened [OnOpen] "connecting" [] eq_refl)) _).
  discriminate.
Defined.

(** A text sent to a connecting channel waits, and goes out when the
    channel opens. *)
Lemma sends_before_open_wait_witness :
  let c := Simple.run Simple.fresh [Send (StringData Simple.hi)] in
  onceOpened c <> Settled Fulfilled
  /\ wire c = []
  /\ things (toPeerDataQueue_ c) = [StringData Simple.hi]
  /\ wire (Simple.step c (ReadyState "open")) = [CallSend Simple.hi].
Proof.
  cbv zeta.
  assert (onceOpened (Simple.run Simple.fresh [Send (StringData Simple.hi)])
          <> Settled Fulfilled) as Hno by discriminate.
  destruct (sends_before_open_wait SimpleTransport.send SimpleTransport.sendBuffer
              SimpleTransport.close SimpleTransport.opened
              [Send (StringData Simple.hi)] (ReadyState "open") Hno)
    as (Hw & Hq & Hopen).
  destruct (Hopen eq_refl) as (Hw' & _).
  repeat split; assumption.
Defined.

(** A text sent to a channel that failed to open: its promise stays
    pending. *)
Lemma queued_promise_waits_witness :
  onceOpened Scenario.failed <> Settled Fulfilled
  /\ units_of (StringData Simple.hi) <> []
  /\ exists p c',
      Simple.send (StringData Simple.hi) Scenario.failed = Normal (Some p) c'
      /\ status (settled (Simple.run c' [OnOpen; TimerFired])) p = StillPending.
Proof.
  assert (onceOpened Scenario.failed <> Settled Fulfilled) as Hno by discriminate.
  assert (units_of (StringData Simple.hi) <> []) as Hunits by discriminate.
  split; [exact Hno|]. split; [exact Hunits|].
  destruct (queued_promise_waits SimpleTransport.send SimpleTransport.sendBuffer
              SimpleTransport.close (StringData Simple.hi) Scenario.failed
              (reachable_simple _) Hno Hunits)
    as (p & c' & Hsend & _ & Hfailed).
  exists p, c'. split; [exact Hsend|]. now apply Hfailed.
Defined.

(** The suspended channel has its timer armed. *)
Lemma suspended_is_polling_witness :
  onceOpened Scenario.suspended = Settled Fulfilled
  /\ isHandling (toPeerDataQueue_ Scenario.suspended) = false
  /\ (timeouts Scenario.suspended <> []
      \/ (0 < bufferedAmount_requested Scenario.suspended)%nat).
Proof.
  split; [reflexivity|]. split; [reflexivity|].
  apply (suspended_is_polling SimpleTransport.send SimpleTransport.sendBuffer
           SimpleTransport.close Scenario.suspended (reachable_simple _)
           eq_refl eq_refl).
Defined.

(** On the suspended channel a text, the timer and another sample over
    the ceiling put nothing on the wire. *)
Lemma suspended_sends_nothing_witness :
  let evs := [Send (StringData Simple.hi); TimerFired; BufferedAmount 260000] in
  forallb over_ceiling evs = true
  /\ wire (Simple.run Scenario.suspended evs) = wire Scenario.suspended
  /\ things (toPeerDataQueue_ (Simple.run Scenario.suspended evs)) = [StringData Simple.hi].
Proof.
  cbv zeta. split; [reflexivity|].
  destruct (suspended_sends_nothing SimpleTransport.send SimpleTransport.sendBuffer
              SimpleTransport.close Scenario.suspended
              [Send (StringData Simple.hi); TimerFired; BufferedAmount 260000]
              eq_refl ltac:(discriminate) eq_refl)
    as (Hw & _ & Hq).
  split; assumption.
Defined.

(** The promise of the text that waited until the channel opened. *)
Lemma promises_are_accounted_witness :
  (0 < next_promise Scenario.opened_late)%nat
  /\ isHandling (toPeerDataQueue_ Scenario.opened_late) = true
  /\ is_Some (settled Scenario.opened_late !! 0%nat).
Proof.
  assert (0 < next_promise Scenario.opened_late)%nat as Hid by (vm_compute; lia).
  split; [exact Hid|]. split; [reflexivity|].
  now apply (promises_are_accounted SimpleTransport.send SimpleTransport.sendBuffer
               SimpleTransport.close Scenario.opened_late 0%nat
               (reachable_simple _) Hid).
Defined.

Lemma settled_for_good_witness :
  settled Scenario.opened_late !! 0%nat = Some Fulfilled
  /\ settled (Simple.run Scenario.opened_late
                [Transport SimpleTransport.closed; OnClose; Send (StringData Simple.hi)])
       !! 0%nat
     = Some Fulfilled.
Proof.
  assert (settled Scenario.opened_late !! 0%nat = Some Fulfilled) as Hs by reflexivity.
  split; [exact Hs|].
  apply (settled_for_good SimpleTransport.send SimpleTransport.sendBuffer
           SimpleTransport.close Scenario.opened_late _ 0%nat Fulfilled
           (reachable_simple _) Hs).
Defined.
